(** * item-scanner: the scan route handler and lib/imageStore.ts

    A shallow embedding of the scan route handler: the JSON extraction
    cascade [extractJson], the vision client [fetchClaudeAnalysis], the
    search client [fetchLensResults], the blob helpers [uploadImage] and
    [deleteBlob], and the handler [POST] that joins the two promise chains.

    JavaScript strings are sequences of UTF-16 code units; they are modelled
    as lists of code units in [N].  Promises are modelled by their settled
    outcome in a small writer/error monad that records every external call. *)

From Stdlib Require Import String Ascii DecimalString.
From Stdlib Require Import List NArith ZArith Lia Bool.
Import ListNotations.

(* ------------------------------------------------------------------ *)
(** ** Texts: JavaScript strings as UTF-16 code units                   *)
(* ------------------------------------------------------------------ *)

Definition text := list N.

(** An ASCII literal of the source as a text. *)
Definition lit (s : string) : text := map N_of_ascii (list_ascii_of_string s).

(** The same with every apostrophe standing for a double quote, to write
    JSON texts legibly. *)
Definition qlit (s : string) : text :=
  map (fun c => if (c =? 39)%N then 34%N else c) (lit s).

Definition LBRACE : N := 123.    (* { *)
Definition RBRACE : N := 125.    (* } *)
Definition LBRACKET : N := 91.   (* [ *)
Definition RBRACKET : N := 93.   (* ] *)
Definition QUOTE : N := 34.      (* the double quote *)
Definition BACKSLASH : N := 92.
Definition COMMA : N := 44.
Definition COLON : N := 58.
Definition MINUS : N := 45.
Definition PLUS : N := 43.
Definition DOT : N := 46.
Definition ZERO : N := 48.
Definition BACKTICK : N := 96.

Fixpoint text_eqb (a b : text) : bool :=
  match a, b with
  | [], [] => true
  | x :: a', y :: b' => N.eqb x y && text_eqb a' b'
  | _, _ => false
  end.

(** The class matched by [\s] in a regular expression and removed by
    [String.prototype.trim]: WhiteSpace and LineTerminator code points. *)
Definition isWhiteSpace (c : N) : bool :=
  ((9 <=? c) && (c <=? 13) || (c =? 32) || (c =? 160) || (c =? 5760)
   || (8192 <=? c) && (c <=? 8202) || (c =? 8232) || (c =? 8233)
   || (c =? 8239) || (c =? 8287) || (c =? 12288) || (c =? 65279))%N.

(** JSON white space: tab, line feed, carriage return, space. *)
Definition isJsonWhiteSpace (c : N) : bool :=
  ((c =? 9) || (c =? 10) || (c =? 13) || (c =? 32))%N.

Fixpoint drop_while (p : N -> bool) (s : text) : text :=
  match s with
  | [] => []
  | c :: r => if p c then drop_while p r else s
  end.

Definition skip_ws : text -> text := drop_while isWhiteSpace.
Definition skip_jws : text -> text := drop_while isJsonWhiteSpace.

(** Case folding of the [i] flag (without [u]): a code unit and its upper
    case are identified; a non-ASCII unit never folds onto an ASCII one, so
    for the ASCII pattern letters only the two ASCII cases match. *)
Definition canonicalize (c : N) : N :=
  if ((97 <=? c) && (c <=? 122))%N then (c - 32)%N else c.

(** [match_prefix_ci p s]: the pattern text [p] matches at the start of [s]
    up to case; returns what follows the match. *)
Fixpoint match_prefix_ci (p s : text) : option text :=
  match p, s with
  | [], _ => Some s
  | a :: p', c :: s' =>
      if (canonicalize a =? canonicalize c)%N then match_prefix_ci p' s' else None
  | _ :: _, [] => None
  end.

(** Exact prefix match. *)
Fixpoint match_prefix (p s : text) : option text :=
  match p, s with
  | [], _ => Some s
  | a :: p', c :: s' => if (a =? c)%N then match_prefix p' s' else None
  | _ :: _, [] => None
  end.

Definition FENCE : text := [BACKTICK; BACKTICK; BACKTICK].

(** [raw.replace] of [/^```(?:json)?\s*/i] by the empty string: the match is anchored at the
    start; the optional group and the star are greedy and nothing after them
    can fail, so there is no backtracking. *)
Definition replace_leading_fence (s : text) : text :=
  match match_prefix_ci FENCE s with
  | None => s
  | Some r =>
      match match_prefix_ci (lit "json") r with
      | Some r' => skip_ws r'
      | None => skip_ws r
      end
  end.

(** [.replace] of [/\s*```\s*$/i] by the empty string: a match must run to the end of the text,
    so its three backticks are the ones just before the trailing white space,
    and the leftmost match starts at the beginning of the white space run in
    front of them.  Read from the end: white space, the fence, white space. *)
Definition replace_trailing_fence (s : text) : text :=
  match match_prefix FENCE (skip_ws (rev s)) with
  | Some r => rev (skip_ws r)
  | None => s
  end.

(** [String.prototype.trim]. *)
Definition trim (s : text) : text := rev (skip_ws (rev (skip_ws s))).

(** [String.prototype.indexOf] and [lastIndexOf] for a one-unit needle:
    the index of the first (last) occurrence, -1 when there is none. *)
Fixpoint indexOf (c : N) (s : text) : Z :=
  match s with
  | [] => (-1)%Z
  | x :: r =>
      if (x =? c)%N then 0%Z
      else let i := indexOf c r in if (i <? 0)%Z then (-1)%Z else (i + 1)%Z
  end.

Fixpoint lastIndexOf (c : N) (s : text) : Z :=
  match s with
  | [] => (-1)%Z
  | x :: r =>
      let i := lastIndexOf c r in
      if (i <? 0)%Z then (if (x =? c)%N then 0%Z else (-1)%Z) else (i + 1)%Z
  end.

(** [String.prototype.slice(start, end)]: negative indices count from the
    end, both are clamped to the length. *)
Definition slice (s : text) (start stop : Z) : text :=
  let len := Z.of_nat (length s) in
  let from := if (start <? 0)%Z then Z.max (len + start) 0 else Z.min start len in
  let to := if (stop <? 0)%Z then Z.max (len + stop) 0 else Z.min stop len in
  firstn (Z.to_nat (to - from)) (skipn (Z.to_nat from) s).

(** Greedy [[\s\S]*] followed by the unit [c]: the longest prefix of [s]
    that ends with [c]. *)
Fixpoint upto_last (c : N) (s : text) : option text :=
  match s with
  | [] => None
  | x :: r =>
      match upto_last c r with
      | Some p => Some (x :: p)
      | None => if (x =? c)%N then Some [x] else None
      end
  end.

(** [raw.match(/\{[\s\S]*\}/)]: the leftmost position where the pattern
    matches, with the greedy star backtracking to the last closing brace;
    [None] is the null result, [Some m] is element 0 of the match. *)
Fixpoint match_braces (s : text) : option text :=
  match s with
  | [] => None
  | x :: r =>
      if (x =? LBRACE)%N then
        match upto_last RBRACE r with
        | Some p => Some (x :: p)
        | None => match_braces r
        end
      else match_braces r
  end.

(* ------------------------------------------------------------------ *)
(** ** JSON values and JSON.parse                                        *)
(* ------------------------------------------------------------------ *)

(** A parsed JSON value.  A number keeps the text of its literal: no claim
    depends on its numeric value.  An object is the list of its own
    properties in creation order. *)
#[warnings="-register-all"]
Inductive json : Type :=
| JNull
| JBool (b : bool)
| JNumber (lexeme : text)
| JString (s : text)
| JArray (items : list json)
| JObject (props : list (text * json)).

(** CreateDataProperty: a key already present keeps its place and takes the
    new value; a new key goes last. *)
Fixpoint obj_set {V : Type} (o : list (text * V)) (k : text) (v : V) : list (text * V) :=
  match o with
  | [] => [(k, v)]
  | (k', v') :: r =>
      if text_eqb k' k then (k', v) :: r else (k', v') :: obj_set r k v
  end.

Fixpoint obj_get {V : Type} (o : list (text * V)) (k : text) : option V :=
  match o with
  | [] => None
  | (k', v') :: r => if text_eqb k' k then Some v' else obj_get r k
  end.

(** Parser results: a value with the unread rest, a syntax error, or the
    recursion budget exhausted (shown below never to happen). *)
Inductive presult (A : Type) : Type :=
| POk (a : A) (rest : text)
| PError
| PFuel.
Arguments POk {A} a rest.
Arguments PError {A}.
Arguments PFuel {A}.

Definition pmap {A B : Type} (f : A -> B) (r : presult A) : presult B :=
  match r with
  | POk a rest => POk (f a) rest
  | PError => PError
  | PFuel => PFuel
  end.

Definition isDigit (c : N) : bool := ((48 <=? c) && (c <=? 57))%N.

Definition hexValue (c : N) : option N :=
  if ((48 <=? c) && (c <=? 57))%N then Some (c - 48)%N
  else if ((97 <=? c) && (c <=? 102))%N then Some (c - 87)%N
  else if ((65 <=? c) && (c <=? 70))%N then Some (c - 55)%N
  else None.

(** The single-character escapes of a JSON string. *)
Definition escapeValue (c : N) : option N :=
  if (c =? 34)%N then Some 34%N            (* \ then a double quote *)
  else if (c =? 92)%N then Some 92%N       (* \\ *)
  else if (c =? 47)%N then Some 47%N       (* \/ *)
  else if (c =? 98)%N then Some 8%N        (* \b *)
  else if (c =? 102)%N then Some 12%N      (* \f *)
  else if (c =? 110)%N then Some 10%N      (* \n *)
  else if (c =? 114)%N then Some 13%N      (* \r *)
  else if (c =? 116)%N then Some 9%N       (* \t *)
  else None.

(** The characters of a JSON string after its opening quote, up to and
    including the closing quote. *)
Fixpoint parse_chars (s : text) : presult text :=
  match s with
  | [] => PError
  | c :: r =>
      if (c =? QUOTE)%N then POk [] r
      else if (c =? BACKSLASH)%N then
        match r with
        | [] => PError
        | d :: r1 =>
            if (d =? 117)%N then                       (* \uXXXX *)
              match r1 with
              | h1 :: h2 :: h3 :: h4 :: r2 =>
                  match hexValue h1, hexValue h2, hexValue h3, hexValue h4 with
                  | Some a, Some b, Some e, Some f =>
                      match parse_chars r2 with
                      | POk t rest => POk ((((a * 16 + b) * 16 + e) * 16 + f)%N :: t) rest
                      | PError => PError
                      | PFuel => PFuel
                      end
                  | _, _, _, _ => PError
                  end
              | _ => PError
              end
            else
              match escapeValue d with
              | Some u =>
                  match parse_chars r1 with
                  | POk t rest => POk (u :: t) rest
                  | PError => PError
                  | PFuel => PFuel
                  end
              | None => PError
              end
        end
      else if (c <? 32)%N then PError                 (* raw control character *)
      else
        match parse_chars r with
        | POk t rest => POk (c :: t) rest
        | PError => PError
        | PFuel => PFuel
        end
  end.

Fixpoint take_digits (s : text) : text * text :=
  match s with
  | [] => ([], [])
  | c :: r =>
      if isDigit c then (let (ds, rest) := take_digits r in (c :: ds, rest))
      else ([], s)
  end.

(** A JSON number: an optional minus sign; an integer part, either a single
    zero or a non-zero digit and then any digits; an optional fraction, a dot
    and at least one digit; an optional exponent, e or E, an optional sign
    and at least one digit.  Returns the text of the literal. *)
Definition parse_int (s : text) : presult text :=
  match s with
  | [] => PError
  | c :: r =>
      if (c =? ZERO)%N then POk [c] r
      else if isDigit c then (let (ds, rest) := take_digits r in POk (c :: ds) rest)
      else PError
  end.

Definition parse_frac (s : text) : presult text :=
  match s with
  | c :: r =>
      if (c =? DOT)%N then
        match take_digits r with
        | ([], _) => PError
        | (ds, rest) => POk (c :: ds) rest
        end
      else POk [] s
  | [] => POk [] s
  end.

Definition parse_exp (s : text) : presult text :=
  match s with
  | c :: r =>
      if ((c =? 101) || (c =? 69))%N then
        let (sign, r1) :=
          match r with
          | d :: r' => if ((d =? PLUS) || (d =? MINUS))%N then ([d], r') else ([], r)
          | [] => ([], r)
          end in
        match take_digits r1 with
        | ([], _) => PError
        | (ds, rest) => POk (c :: sign ++ ds) rest
        end
      else POk [] s
  | [] => POk [] s
  end.

Definition parse_number (s : text) : presult text :=
  let (sign, s0) :=
    match s with
    | c :: r => if (c =? MINUS)%N then ([c], r) else ([], s)
    | [] => ([], s)
    end in
  match parse_int s0 with
  | POk i s1 =>
      match parse_frac s1 with
      | POk f s2 =>
          match parse_exp s2 with
          | POk e s3 => POk (sign ++ i ++ f ++ e) s3
          | PError => PError
          | PFuel => PFuel
          end
      | PError => PError
      | PFuel => PFuel
      end
  | PError => PError
  | PFuel => PFuel
  end.

Definition parse_keyword (w : text) (v : json) (s : text) : presult json :=
  match match_prefix w s with
  | Some rest => POk v rest
  | None => PError
  end.

(** The JSON grammar of ECMA-404 as a recursive-descent parser.  [n] bounds
    the depth of the recursion.  [parse_value] reads a value at the head of
    [s] (no leading white space); [parse_members] reads the members of an
    object from the first key to the closing brace, creating the properties
    left to right; [parse_elements] reads the elements of an array up to the
    closing bracket. *)
Fixpoint parse_value (n : nat) (s : text) {struct n} : presult json :=
  match n with
  | O => PFuel
  | S n' =>
      match s with
      | [] => PError
      | c :: r =>
          if (c =? LBRACE)%N then
            match skip_jws r with
            | [] => PError
            | d :: r' =>
                if (d =? RBRACE)%N then POk (JObject []) r'
                else pmap JObject (parse_members n' [] (d :: r'))
            end
          else if (c =? LBRACKET)%N then
            match skip_jws r with
            | [] => PError
            | d :: r' =>
                if (d =? RBRACKET)%N then POk (JArray []) r'
                else pmap JArray (parse_elements n' (d :: r'))
            end
          else if (c =? QUOTE)%N then pmap JString (parse_chars r)
          else if (c =? 116)%N then parse_keyword (lit "true") (JBool true) s
          else if (c =? 102)%N then parse_keyword (lit "false") (JBool false) s
          else if (c =? 110)%N then parse_keyword (lit "null") JNull s
          else if ((c =? MINUS) || isDigit c)%N then pmap JNumber (parse_number s)
          else PError
      end
  end

with parse_members (n : nat) (acc : list (text * json)) (s : text) {struct n}
  : presult (list (text * json)) :=
  match n with
  | O => PFuel
  | S n' =>
      match s with
      | [] => PError
      | c :: r =>
          if (c =? QUOTE)%N then
            match parse_chars r with
            | POk k s1 =>
                match skip_jws s1 with
                | [] => PError
                | c1 :: s2 =>
                    if (c1 =? COLON)%N then
                      match parse_value n' (skip_jws s2) with
                      | POk v s3 =>
                          match skip_jws s3 with
                          | [] => PError
                          | c2 :: s4 =>
                              if (c2 =? COMMA)%N then
                                parse_members n' (obj_set acc k v) (skip_jws s4)
                              else if (c2 =? RBRACE)%N then POk (obj_set acc k v) s4
                              else PError
                          end
                      | PError => PError
                      | PFuel => PFuel
                      end
                    else PError
                end
            | PError => PError
            | PFuel => PFuel
            end
          else PError
      end
  end

with parse_elements (n : nat) (s : text) {struct n} : presult (list json) :=
  match n with
  | O => PFuel
  | S n' =>
      match parse_value n' s with
      | POk v s1 =>
          match skip_jws s1 with
          | [] => PError
          | c :: s2 =>
              if (c =? COMMA)%N then
                match parse_elements n' (skip_jws s2) with
                | POk vs rest => POk (v :: vs) rest
                | PError => PError
                | PFuel => PFuel
                end
              else if (c =? RBRACKET)%N then POk [v] s2
              else PError
          end
      | PError => PError
      | PFuel => PFuel
      end
  end.

(** The whole text must be one value between optional white space. *)
Definition parse_json_text (s : text) : presult json :=
  match parse_value (2 * length s + 2) (skip_jws s) with
  | POk v rest =>
      match skip_jws rest with
      | [] => POk v []
      | _ :: _ => PError
      end
  | PError => PError
  | PFuel => PFuel
  end.

(* ------------------------------------------------------------------ *)
(** ** Thrown values and settled promises                                *)
(* ------------------------------------------------------------------ *)

(** What a [throw] or a rejected promise carries: an instance of [Error]
    with its message (Error, TypeError, SyntaxError, DOMException, the
    errors of the SDK and of the blob client), or some other non-nullish
    value, whose [message] property is undefined. *)
Inductive thrown : Type :=
| ErrorObject (message : text)
| OtherValue.

Inductive Result (A : Type) : Type :=
| Ok (a : A)
| Err (e : thrown).
Arguments Ok {A} a.
Arguments Err {A} e.

(** Errors raised by the runtime itself.  Their message text is defined by
    the engine; the program only ever passes it to the console. *)
Definition syntaxError : thrown := ErrorObject (lit "Unexpected token in JSON").
Definition typeError : thrown := ErrorObject (lit "Cannot read properties of null").
Definition notAFunction : thrown := ErrorObject (lit "is not a function").

(** [JSON.parse]: the value, or a SyntaxError.  The third case never
    arises ([parse_json_text_fuel] below). *)
Definition JSON_parse (s : text) : Result json :=
  match parse_json_text s with
  | POk v _ => Ok v
  | PError => Err syntaxError
  | PFuel => Err syntaxError
  end.

(* ------------------------------------------------------------------ *)
(** ** extractJson                                                       *)
(* ------------------------------------------------------------------ *)

Definition fenceStripped (raw : text) : text :=
  trim (replace_trailing_fence (replace_leading_fence raw)).

(** The candidates pushed onto [attempts], in order. *)
Definition attempts (raw : text) : list text :=
  let firstBrace := indexOf LBRACE raw in
  let lastBrace := lastIndexOf RBRACE raw in
  [fenceStripped raw]
  ++ (if negb (firstBrace =? -1)%Z && (lastBrace >? firstBrace)%Z
      then [slice raw firstBrace (lastBrace + 1)] else [])
  ++ (match match_braces raw with
      | Some m => [m]
      | None => []
      end).

(** [obj && typeof obj === "object" && !Array.isArray(obj)]: [null] is
    falsy, an array is an array, and the type of a boolean, a number or a
    string is not "object". *)
Definition accepted (v : json) : option (list (text * json)) :=
  match v with
  | JObject o => Some o
  | JNull => None
  | JArray _ => None
  | JBool _ => None
  | JNumber _ => None
  | JString _ => None
  end.

(** The loop over the candidates: the body of the [try] either returns the
    object, falls through, or throws into the empty [catch]. *)
Fixpoint extract_loop (candidates : list text) : Result (option (list (text * json))) :=
  match candidates with
  | [] => Ok None
  | candidate :: rest =>
      match JSON_parse candidate with
      | Ok obj =>
          match accepted obj with
          | Some o => Ok (Some o)
          | None => extract_loop rest
          end
      | Err _ => extract_loop rest
      end
  end.

(** [extractJson]: [Ok None] is the [null] result.  The outcome is a
    [Result] so that "nothing escapes the function" is a statement about
    the model and not a consequence of its type. *)
Definition extractJson (raw : text) : Result (option (list (text * json))) :=
  extract_loop (attempts raw).

(** Vocabulary of the extraction properties. *)

(** The text holds an opening brace with a closing brace somewhere after. *)
Definition has_brace_pair (T : text) : Prop :=
  exists a b c, T = a ++ LBRACE :: b ++ RBRACE :: c.

(** All non-empty contiguous pieces of a text. *)
Fixpoint prefixes (s : text) : list text :=
  match s with
  | [] => []
  | c :: r => [c] :: map (cons c) (prefixes r)
  end.

Fixpoint substrings (s : text) : list text :=
  match s with
  | [] => []
  | _ :: r => prefixes s ++ substrings r
  end.

Definition parses_to_object (c : text) : bool :=
  match JSON_parse c with
  | Ok (JObject _) => true
  | _ => false
  end.

(** [J] is the only JSON object text inside [T]: every piece of [T] that
    parses to an object is [J], give or take white space around it. *)
Definition only_object_in (T J : text) : bool :=
  forallb (fun c => negb (parses_to_object c)
                    || text_eqb (rev (skip_jws (rev (skip_jws c)))) J)
          (substrings T).

(* ------------------------------------------------------------------ *)
(** ** Asynchronous code: outcomes with a record of the external calls   *)
(* ------------------------------------------------------------------ *)

Inductive event : Type :=
| MessagesCreate (image mediaType : text)   (* client.messages.create *)
| BlobPut (data mediaType : text)           (* put of @vercel/blob *)
| LensFetch (imageUrl apiKey : text)        (* fetch of the search endpoint *)
| BlobDel (url : text)                      (* del of @vercel/blob *)
| ConsoleLog (label detail : text)
| ConsoleWarn (label : text) (detail : option text)
| ConsoleError (label detail : text).

(** An awaited computation: the events it caused and how it settled. *)
Definition M (A : Type) : Type := (list event * Result A)%type.

Definition ret {A : Type} (a : A) : M A := ([], Ok a).
Definition throw {A : Type} (e : thrown) : M A := ([], Err e).
Definition emit (ev : event) : M unit := ([ev], Ok tt).

(** An external call: the call is recorded, its outcome is the world's. *)
Definition call {A : Type} (ev : event) (r : Result A) : M A := ([ev], r).

(** [await] and [.then]. *)
Definition bind {A B : Type} (m : M A) (f : A -> M B) : M B :=
  match m with
  | (t, Ok a) => let (t', r) := f a in (t ++ t', r)
  | (t, Err e) => (t, Err e)
  end.

(** [.catch(h)]. *)
Definition catch {A : Type} (m : M A) (h : thrown -> M A) : M A :=
  match m with
  | (t, Ok a) => (t, Ok a)
  | (t, Err e) => let (t', r) := h e in (t ++ t', r)
  end.

(** [.finally(g)]: [g] runs on either outcome; the outcome of [m] stands
    unless the promise returned by [g] rejects. *)
Definition finally {A B : Type} (m : M A) (g : M B) : M A :=
  let (t, r) := m in
  let (t', r') := g in
  match r' with
  | Ok _ => (t ++ t', r)
  | Err e => (t ++ t', Err e)
  end.

Notation "x <- m ;; k" := (bind m (fun x => k))
  (at level 61, m at next level, right associativity).
Notation "m ;;; k" := (bind m (fun _ => k))
  (at level 61, right associativity).

(** [e.message] as read by the handlers. *)
Definition message_of (e : thrown) : option text :=
  match e with
  | ErrorObject m => Some m
  | OtherValue => None
  end.

(* ------------------------------------------------------------------ *)
(** ** The world of one scan                                             *)
(* ------------------------------------------------------------------ *)

(** A content block of the model's reply. *)
Inductive ContentBlock : Type :=
| TextBlock (t : text)
| OtherBlock.

(** The response of [fetch]: [ok] holds for a status in 200..299; [json] is
    the outcome of reading the body with [res.json()]. *)
Record Response : Type := {
  status : N;
  json_body : Result json
}.

Definition ok (res : Response) : bool :=
  ((200 <=? status res) && (status res <=? 299))%N.

(** The environment variables, the request and the behaviour of the three
    external services during one invocation of the handler. *)
Record World : Type := {
  ANTHROPIC_API_KEY : option text;
  SERPAPI_KEY : option text;
  BLOB_READ_WRITE_TOKEN : option text;
  req_json : Result json;                               (* await req.json() *)
  messages_create : text -> text -> Result (list ContentBlock);
  blob_put : text -> text -> Result text;               (* resolves to blob.url *)
  lens_fetch : text -> text -> Result Response;         (* rejects on network failure or timeout *)
  blob_del : text -> Result unit
}.

(** Truthiness of an environment variable: set and not empty. *)
Definition truthy_env (v : option text) : option text :=
  match v with
  | Some (c :: r) => Some (c :: r)
  | Some [] => None
  | None => None
  end.

(* ------------------------------------------------------------------ *)
(** ** Property reads on parsed JSON                                     *)
(* ------------------------------------------------------------------ *)

(** What a property read can yield: undefined, a JSON value, or a built-in
    function inherited from a prototype. *)
Inductive js : Type :=
| JUndefined
| JVal (v : json)
| JFunction.

(** [v.k] for the property names this program reads (image, mediaType,
    visual_matches, title, price, value, link, source, thumbnail).  Reading
    from [null] throws; an object yields its own property, no prototype
    defines any of these names except [String.prototype.link]. *)
Definition get_prop (v : json) (k : text) : Result js :=
  match v with
  | JNull => Err typeError
  | JObject o =>
      Ok (match obj_get o k with
          | Some x => JVal x
          | None => JUndefined
          end)
  | JString _ => Ok (if text_eqb k (lit "link") then JFunction else JUndefined)
  | JBool _ => Ok JUndefined
  | JNumber _ => Ok JUndefined
  | JArray _ => Ok JUndefined
  end.

Definition nullish (x : js) : bool :=
  match x with
  | JUndefined => true
  | JVal JNull => true
  | _ => false
  end.

(** [x ?? d]. *)
Definition coalesce (x d : js) : js := if nullish x then d else x.

(** [x?.k]. *)
Definition opt_chain (x : js) (k : text) : js :=
  match x with
  | JUndefined => JUndefined
  | JFunction => JUndefined
  | JVal JNull => JUndefined
  | JVal v =>
      match get_prop v k with
      | Ok y => y
      | Err _ => JUndefined
      end
  end.

(* ------------------------------------------------------------------ *)
(** ** fetchClaudeAnalysis                                               *)
(* ------------------------------------------------------------------ *)

(** The text blocks of [message.content], joined without a separator. *)
Fixpoint rawTextOf (content : list ContentBlock) : text :=
  match content with
  | [] => []
  | TextBlock t :: r => t ++ rawTextOf r
  | OtherBlock :: r => rawTextOf r
  end.

Definition EXTRACT_PREFIX : text := lit "Could not extract JSON from Claude response: ".

Definition fetchClaudeAnalysis (w : World) (image mediaType : text)
  : M (list (text * json)) :=
  content <- call (MessagesCreate image mediaType) (messages_create w image mediaType) ;;
  let rawText := rawTextOf content in
  emit (ConsoleLog (lit "[Claude raw response]") rawText) ;;;
  parsed <- ([], extractJson rawText) ;;
  match parsed with
  | None => throw (ErrorObject (EXTRACT_PREFIX ++ rawText))
  | Some o => ret o
  end.

(* ------------------------------------------------------------------ *)
(** ** fetchLensResults                                                  *)
(* ------------------------------------------------------------------ *)

Record WebResult : Type := {
  title : js;
  price : js;
  link : js;
  source : js;
  thumbnail : js
}.

(** The callback of [map]: one visual match to one [WebResult]. *)
Definition toWebResult (m : json) : Result WebResult :=
  match get_prop m (lit "title"), get_prop m (lit "price"), get_prop m (lit "link"),
        get_prop m (lit "source"), get_prop m (lit "thumbnail") with
  | Ok t, Ok p, Ok l, Ok s, Ok th =>
      Ok {| title := coalesce t (JVal (JString (lit "Unknown")));
            price := coalesce (opt_chain p (lit "value")) (JVal JNull);
            link := coalesce l (JVal (JString []));
            source := coalesce s (JVal (JString []));
            thumbnail := coalesce th (JVal JNull) |}
  | Err e, _, _, _, _ => Err e
  | _, Err e, _, _, _ => Err e
  | _, _, Err e, _, _ => Err e
  | _, _, _, Err e, _ => Err e
  | _, _, _, _, Err e => Err e
  end.

Fixpoint map_results (ms : list json) : Result (list WebResult) :=
  match ms with
  | [] => Ok []
  | m :: r =>
      match toWebResult m with
      | Ok x =>
          match map_results r with
          | Ok xs => Ok (x :: xs)
          | Err e => Err e
          end
      | Err e => Err e
      end
  end.

(** From the parsed body to the result list:
    [(data.visual_matches ?? []).slice(0, 5).map(...)].  Only an array has
    both [slice] and [map]. *)
Definition lensResultsOf (data : json) : Result (list WebResult) :=
  match get_prop data (lit "visual_matches") with
  | Err e => Err e
  | Ok vm =>
      match coalesce vm (JVal (JArray [])) with
      | JVal (JArray matches) => map_results (firstn 5 matches)
      | _ => Err notAFunction
      end
  end.

Definition decimal (n : N) : text := lit (NilZero.string_of_uint (N.to_uint n)).

Definition fetchLensResults (w : World) (imageUrl apiKey : text) : M (list WebResult) :=
  res <- call (LensFetch imageUrl apiKey) (lens_fetch w imageUrl apiKey) ;;
  if negb (ok res)
  then throw (ErrorObject (lit "SerpApi responded with " ++ decimal (status res)))
  else
    data <- ([], json_body res) ;;
    ([], lensResultsOf data).

(* ------------------------------------------------------------------ *)
(** ** lib/imageStore.ts                                                 *)
(* ------------------------------------------------------------------ *)

(** [uploadImage]: one [put]; the object name (a fresh UUID with the
    extension of the media type) plays no part in what follows. *)
Definition uploadImage (w : World) (data mediaType : text) : M text :=
  url <- call (BlobPut data mediaType) (blob_put w data mediaType) ;;
  ret url.

Definition deleteBlob (w : World) (url : text) : M unit :=
  call (BlobDel url) (blob_del w url).

(* ------------------------------------------------------------------ *)
(** ** The route handler                                                 *)
(* ------------------------------------------------------------------ *)

Definition VALID_MEDIA_TYPES : list text :=
  [lit "image/jpeg"; lit "image/png"; lit "image/gif"; lit "image/webp"].

(** A property of a response body: a JSON value or the web result list. *)
Inductive field : Type :=
| FJson (v : json)
| FWebResults (l : list WebResult).

(** How the handler ends: [NextResponse.json(body, {status})], or an
    exception that escapes it. *)
Inductive outcome : Type :=
| Responded (code : N) (body : list (text * field))
| Uncaught (e : thrown).

Definition error_body (msg : text) : list (text * field) :=
  [(lit "error", FJson (JString msg))].

(** [{ ...claudeResult, webResults }]: the own properties of the analysis
    are copied first, in order, then [webResults] is defined. *)
Definition spread (o : list (text * json)) : list (text * field) :=
  map (fun kv => (fst kv, FJson (snd kv))) o.

Definition success_body (claudeResult : list (text * json)) (webResults : list WebResult)
  : list (text * field) :=
  obj_set (spread claudeResult) (lit "webResults") (FWebResults webResults).

(** [VALID_MEDIA_TYPES.includes(mediaType) ? mediaType : "image/jpeg"]. *)
Definition resolveMediaType (mediaType : js) : text :=
  match mediaType with
  | JVal (JString m) =>
      if existsb (text_eqb m) VALID_MEDIA_TYPES then m else lit "image/jpeg"
  | _ => lit "image/jpeg"
  end.

(** The optional chain: upload, search, delete, with both handlers. *)
Definition webResultsPromise (w : World) (image mediaType : text) : M (list WebResult) :=
  match truthy_env (SERPAPI_KEY w), truthy_env (BLOB_READ_WRITE_TOKEN w) with
  | Some serpApiKey, Some _ =>
      catch
        (blobUrl <- uploadImage w image mediaType ;;
         finally
           (fetchLensResults w blobUrl serpApiKey)
           (catch (deleteBlob w blobUrl)
                  (fun e => emit (ConsoleWarn (lit "Blob cleanup failed (non-fatal):")
                                              (message_of e)))))
        (fun err =>
           emit (ConsoleWarn (lit "SerpApi/Blob flow failed (non-fatal):") (message_of err)) ;;;
           ret [])
  | _, _ => ret []
  end.

(** The [catch] block of the handler. *)
Definition scanError (err : thrown) : list event * outcome :=
  let msg := match err with
             | ErrorObject m => m
             | OtherValue => lit "Unknown error"
             end in
  ([ConsoleError (lit "Scan error:") msg],
   match match_prefix (lit "Could not extract JSON") msg with
   | Some _ =>
       Responded 502
         [(lit "error", FJson (JString (lit "Claude returned an unexpected response format.")));
          (lit "raw", FJson (JString msg))]
   | None => Responded 502 (error_body (lit "API request failed: " ++ msg))
   end).

(** The handler from the point where both promises exist: both chains are
    started before either is awaited; the events of the vision chain are
    listed before those of the optional chain.  [Promise.all] rejects with
    the rejection of the vision chain; should the optional chain reject, its
    reason takes the same path. *)
Definition runScan (w : World) (image resolvedMediaType : text) : list event * outcome :=
  let (tA, claude) := fetchClaudeAnalysis w image resolvedMediaType in
  let (tB, web) := webResultsPromise w image resolvedMediaType in
  match claude, web with
  | Ok claudeResult, Ok webResults =>
      (tA ++ tB, Responded 200 (success_body claudeResult webResults))
  | Err err, _ =>
      let (tC, r) := scanError err in (tA ++ tB ++ tC, r)
  | Ok _, Err err =>
      let (tC, r) := scanError err in (tA ++ tB ++ tC, r)
  end.

(** [POST]: the checks made before any external call, then the scan.
    Destructuring a [null] body throws outside every [try]. *)
Definition POST (w : World) : list event * outcome :=
  match truthy_env (ANTHROPIC_API_KEY w) with
  | None =>
      ([], Responded 500 (error_body (lit "ANTHROPIC_API_KEY environment variable is not set.")))
  | Some _ =>
      match req_json w with
      | Err _ => ([], Responded 400 (error_body (lit "Invalid JSON body.")))
      | Ok body =>
          (* const { image, mediaType } = body *)
          match get_prop body (lit "image"), get_prop body (lit "mediaType") with
          | Ok (JVal (JString (c :: r))), Ok mediaType =>
              runScan w (c :: r) (resolveMediaType mediaType)
          | Ok _, Ok _ =>
              (* !image || typeof image !== "string" *)
              ([], Responded 400 (error_body (lit "Missing base64 image in request body.")))
          | Err e, _ => ([], Uncaught e)
          | _, Err e => ([], Uncaught e)
          end
      end
  end.

Definition response (w : World) : outcome := snd (POST w).
Definition trace (w : World) : list event := fst (POST w).

(** Vocabulary of the handler properties. *)

Definition js_of (v : option json) : js :=
  match v with
  | Some x => JVal x
  | None => JUndefined
  end.

(** The request passes every check made before the external calls: the
    vision credential is set, the body is an object and its [image] is a
    non-empty string; [mediaType] is the resolved media type. *)
Definition valid_request (w : World) (image mediaType : text) : Prop :=
  (exists k, truthy_env (ANTHROPIC_API_KEY w) = Some k) /\
  exists props,
    req_json w = Ok (JObject props) /\
    obj_get props (lit "image") = Some (JString image) /\
    image <> [] /\
    mediaType = resolveMediaType (js_of (obj_get props (lit "mediaType"))).

(** The WebMatch of the specification, built from the members of one
    visual match: a member that is absent (or null) takes its default; the
    price is the [value] member of the price object, null without one. *)
Definition default_of (v : option json) (d : json) : js :=
  match v with
  | None => JVal d
  | Some JNull => JVal d
  | Some x => JVal x
  end.

Definition price_of (v : option json) : js :=
  match v with
  | Some (JObject pp) => default_of (obj_get pp (lit "value")) JNull
  | _ => JVal JNull
  end.

Definition spec_WebMatch (m : list (text * json)) : WebResult := {|
  title := default_of (obj_get m (lit "title")) (JString (lit "Unknown"));
  price := price_of (obj_get m (lit "price"));
  link := default_of (obj_get m (lit "link")) (JString []);
  source := default_of (obj_get m (lit "source")) (JString []);
  thumbnail := default_of (obj_get m (lit "thumbnail")) JNull
|}.

(** What the mapping reads of one visual match: the members of an object;
    a boolean, a number or an array has none of the five members. *)
Definition members_of (m : json) : list (text * json) :=
  match m with
  | JObject o => o
  | _ => []
  end.

(** A visual match that is neither null nor a text. *)
Definition plain_match (m : json) : bool :=
  match m with
  | JNull => false
  | JString _ => false
  | _ => true
  end.

(** The [visual_matches] member of the body of a search response, if the
    body has one. *)
Definition matches_of (data : json) : option json :=
  match data with
  | JObject props => obj_get props (lit "visual_matches")
  | _ => None
  end.

(** Calls to the storage or the search provider. *)
Definition is_enrichment_call (ev : event) : bool :=
  match ev with
  | BlobPut _ _ => true
  | LensFetch _ _ => true
  | BlobDel _ => true
  | _ => false
  end.

(** The URLs passed to [del], in order. *)
Fixpoint deletions (t : list event) : list text :=
  match t with
  | [] => []
  | BlobDel url :: r => url :: deletions r
  | _ :: r => deletions r
  end.

(** The same world with another behaviour of [del]. *)
Definition with_blob_del (w : World) (d : text -> Result unit) : World := {|
  ANTHROPIC_API_KEY := ANTHROPIC_API_KEY w;
  SERPAPI_KEY := SERPAPI_KEY w;
  BLOB_READ_WRITE_TOKEN := BLOB_READ_WRITE_TOKEN w;
  req_json := req_json w;
  messages_create := messages_create w;
  blob_put := blob_put w;
  lens_fetch := lens_fetch w;
  blob_del := d
|}.

(** The optional chain fails: the upload rejects, or the upload resolves
    and the search rejects (network failure, timeout, status, body). *)
Definition enrichment_fails (w : World) (image mediaType serpApiKey : text) : Prop :=
  (exists e, blob_put w image mediaType = Err e) \/
  (exists url e, blob_put w image mediaType = Ok url /\
                 snd (fetchLensResults w url serpApiKey) = Err e).

(** The message the handler derives from a caught value. *)
Definition caught_message (err : thrown) : text :=
  match err with
  | ErrorObject m => m
  | OtherValue => lit "Unknown error"
  end.

(** A scan whose vision call replies with a fenced object while the search
    provider answers with status 500. *)
Definition world_search_500 : World := {|
  ANTHROPIC_API_KEY := Some (lit "sk-1");
  SERPAPI_KEY := Some (lit "serp-1");
  BLOB_READ_WRITE_TOKEN := Some (lit "blob-1");
  req_json := JSON_parse (qlit "{'image':'aGVsbG8=','mediaType':'image/png'}");
  messages_create := fun _ _ =>
    Ok [TextBlock (lit "```json ");
        TextBlock (qlit "{'description':'A red mug','webResults':'none'}");
        OtherBlock; TextBlock (lit " ```")];
  blob_put := fun _ _ => Ok (lit "https://blob.example/temp-scans/1.png");
  lens_fetch := fun _ _ => Ok {| status := 500; json_body := Err syntaxError |};
  blob_del := fun _ => Err (ErrorObject (lit "not found"))
|}.

(** The same scan with a search that answers two matches, and a variant
    without the optional credentials. *)
Definition world_search_ok : World := {|
  ANTHROPIC_API_KEY := Some (lit "sk-1");
  SERPAPI_KEY := Some (lit "serp-1");
  BLOB_READ_WRITE_TOKEN := Some (lit "blob-1");
  req_json := JSON_parse (qlit "{'image':'aGVsbG8=','mediaType':'image/png'}");
  messages_create := fun _ _ =>
    Ok [TextBlock (qlit "{'description':'A red mug','webResults':'none'}")];
  blob_put := fun _ _ => Ok (lit "https://blob.example/temp-scans/1.png");
  lens_fetch := fun _ _ =>
    Ok {| status := 200;
          json_body := JSON_parse
            (qlit "{'visual_matches':[{'title':'Mug','price':{'value':'$5'}},{'link':'https://x'}]}") |};
  blob_del := fun _ => Ok tt
|}.

(** The vision service replies in prose, or not at all; the body lacks the
    image; the vision credential is missing. *)
Definition world_prose : World := {|
  ANTHROPIC_API_KEY := Some (lit "sk-1");
  SERPAPI_KEY := None;
  BLOB_READ_WRITE_TOKEN := None;
  req_json := JSON_parse (qlit "{'image':'aGVsbG8='}");
  messages_create := fun _ _ => Ok [TextBlock (lit "I cannot identify this item.")];
  blob_put := fun _ _ => Err (ErrorObject (lit "no token"));
  lens_fetch := fun _ _ => Err (ErrorObject (lit "unreachable"));
  blob_del := fun _ => Ok tt
|}.



(** The request the client posts for an empty image file. *)
Definition world_empty_file : World := {|
  ANTHROPIC_API_KEY := Some (lit "sk-1");
  SERPAPI_KEY := None;
  BLOB_READ_WRITE_TOKEN := None;
  req_json := JSON_parse (qlit "{'image':'','mediaType':'image/png'}");
  messages_create := fun _ _ => Ok [TextBlock (qlit "{'description':'A red mug'}")];
  blob_put := fun _ _ => Err (ErrorObject (lit "no token"));
  lens_fetch := fun _ _ => Err (ErrorObject (lit "unreachable"));
  blob_del := fun _ => Ok tt
|}.


Definition world_empty_image : World := {|
  ANTHROPIC_API_KEY := Some (lit "sk-1");
  SERPAPI_KEY := None;
  BLOB_READ_WRITE_TOKEN := None;
  req_json := JSON_parse (qlit "{'image':'','mediaType':'image/png'}");
  messages_create := fun _ _ => Err (ErrorObject (lit "Connection error."));
  blob_put := fun _ _ => Err (ErrorObject (lit "no token"));
  lens_fetch := fun _ _ => Err (ErrorObject (lit "unreachable"));
  blob_del := fun _ => Ok tt
|}.


Definition world_no_credential : World := {|
  ANTHROPIC_API_KEY := Some [];
  SERPAPI_KEY := Some (lit "serp-1");
  BLOB_READ_WRITE_TOKEN := Some (lit "blob-1");
  req_json := JSON_parse (qlit "{'image':'aGVsbG8='}");
  messages_create := fun _ _ => Ok [TextBlock (qlit "{'description':'A red mug'}")];
  blob_put := fun _ _ => Ok (lit "https://blob.example/temp-scans/1.png");
  lens_fetch := fun _ _ => Err (ErrorObject (lit "unreachable"));
  blob_del := fun _ => Ok tt
|}.

(** A search that answers six matches. *)
Definition six_matches_body : text :=
  qlit "{'visual_matches':[{'title':'a'},{'price':{'value':'$5'}},{'link':'c'},{'source':'d'},{'thumbnail':'e'},{'title':'f'}]}".

Definition world_six_matches : World := {|
  ANTHROPIC_API_KEY := Some (lit "sk-1");
  SERPAPI_KEY := Some (lit "k");
  BLOB_READ_WRITE_TOKEN := Some (lit "blob-1");
  req_json := JSON_parse (qlit "{'image':'aGVsbG8='}");
  messages_create := fun _ _ => Ok [TextBlock (qlit "{'description':'A red mug'}")];
  blob_put := fun _ _ => Ok (lit "u");
  lens_fetch := fun _ _ => Ok {| status := 200; json_body := JSON_parse six_matches_body |};
  blob_del := fun _ => Ok tt
|}.

(** A search that answers six matches, the third of them null. *)
Definition world_null_in_six : World := {|
  ANTHROPIC_API_KEY := Some (lit "sk-1");
  SERPAPI_KEY := Some (lit "k");
  BLOB_READ_WRITE_TOKEN := Some (lit "blob-1");
  req_json := JSON_parse (qlit "{'image':'aGVsbG8='}");
  messages_create := fun _ _ => Ok [TextBlock (qlit "{'description':'A red mug'}")];
  blob_put := fun _ _ => Ok (lit "u");
  lens_fetch := fun _ _ =>
    Ok {| status := 200;
          json_body := JSON_parse
            (qlit "{'visual_matches':[{'title':'a'},{'title':'b'},null,{'title':'d'},{'title':'e'},{'title':'f'}]}") |};
  blob_del := fun _ => Ok tt
|}.

(** A search that answers one match, which is a text. *)
Definition world_string_match : World := {|
  ANTHROPIC_API_KEY := Some (lit "sk-1");
  SERPAPI_KEY := Some (lit "k");
  BLOB_READ_WRITE_TOKEN := Some (lit "blob-1");
  req_json := JSON_parse (qlit "{'image':'aGVsbG8='}");
  messages_create := fun _ _ => Ok [TextBlock (qlit "{'description':'A red mug'}")];
  blob_put := fun _ _ => Ok (lit "u");
  lens_fetch := fun _ _ =>
    Ok {| status := 200; json_body := JSON_parse (qlit "{'visual_matches':['abc']}") |};
  blob_del := fun _ => Ok tt
|}.

Definition world_no_enrichment : World := {|
  ANTHROPIC_API_KEY := Some (lit "sk-1");
  SERPAPI_KEY := Some (lit "serp-1");
  BLOB_READ_WRITE_TOKEN := None;
  req_json := JSON_parse (qlit "{'image':'aGVsbG8=','mediaType':'image/png'}");
  messages_create := fun _ _ =>
    Ok [TextBlock (qlit "{'description':'A red mug'}")];
  blob_put := fun _ _ => Ok (lit "https://blob.example/temp-scans/1.png");
  lens_fetch := fun _ _ => Err (ErrorObject (lit "unreachable"));
  blob_del := fun _ => Ok tt
|}.

(* ------------------------------------------------------------------ *)
(** ** Vocabulary and tactics of the proofs                              *)
(* ------------------------------------------------------------------ *)

(** A unit that is neither brace. *)
Definition nobrace (c : N) : Prop := c <> LBRACE /\ c <> RBRACE.

(** No white space at either end. *)
Definition trimmed (s : text) : Prop :=
  (forall c r, s = c :: r -> isWhiteSpace c = false) /\
  (forall c r, s = r ++ [c] -> isWhiteSpace c = false).

(** A reply with a closing brace in the prose that follows the object. *)
Definition J0 : text := qlit "{'description':'A red mug'}".
Definition T0 : text := lit "Here you go: " ++ J0 ++ lit " Enjoy :-}".

(** Case analysis on the next test of a parser equation. *)
Ltac brk H :=
  match type of H with
  | context [match ?x with _ => _ end] => destruct x eqn:?
  end.

Ltac brk_goal :=
  match goal with
  | |- context [match ?x with _ => _ end] => destruct x
  end.

Ltac lens E :=
  apply (f_equal (@length N)) in E; repeat (rewrite ?length_app in E; simpl in E).

(** A concrete request passes the checks, by evaluation. *)
Ltac prove_valid :=
  split;
  [ eexists; vm_compute; reflexivity
  | eexists; split; [vm_compute; reflexivity|];
    split; [vm_compute; reflexivity|];
    split; [discriminate | vm_compute; reflexivity] ].

(* ------------------------------------------------------------------ *)
(** ** Further vocabulary: the brace span                                *)
(* ------------------------------------------------------------------ *)

(** The candidate of the second strategy of [extractJson], when there is
    one: the slice from the first opening to the last closing brace. *)
Definition brace_span (raw : text) : option text :=
  let firstBrace := indexOf LBRACE raw in
  let lastBrace := lastIndexOf RBRACE raw in
  if negb (firstBrace =? -1)%Z && (lastBrace >? firstBrace)%Z
  then Some (slice raw firstBrace (lastBrace + 1))
  else None.

(** What [extractJson] makes of one candidate. *)
Definition object_of (c : text) : option (list (text * json)) :=
  match JSON_parse c with
  | Ok v => accepted v
  | Err _ => None
  end.


(* ------------------------------------------------------------------ *)
(** ** lib/imageStore.ts: the name of the uploaded object                *)
(* ------------------------------------------------------------------ *)

(** [String.prototype.split] with a one-unit separator: the pieces between
    the separators; a text without separator is its own single piece. *)
Fixpoint split_on (c : N) (s : text) : list text :=
  match s with
  | [] => [[]]
  | x :: r =>
      if (x =? c)%N then [] :: split_on c r
      else match split_on c r with
           | p :: ps => (x :: p) :: ps
           | [] => [[x]]
           end
  end.

(** [String.prototype.replace] with a text pattern: the first occurrence
    of [pat] is replaced by [rep]; without occurrence the text is unchanged. *)
Fixpoint replace_first (pat rep s : text) : text :=
  match match_prefix pat s with
  | Some r => rep ++ r
  | None =>
      match s with
      | [] => []
      | x :: r => x :: replace_first pat rep r
      end
  end.

(** [mediaType.split("/")[1]?.replace("jpeg", "jpg") ?? "jpg"]. *)
Definition extensionOf (mediaType : text) : text :=
  match nth_error (split_on 47 mediaType) 1 with
  | Some sub => replace_first (lit "jpeg") (lit "jpg") sub
  | None => lit "jpg"
  end.

(** The object name given to [put], for the UUID drawn by [randomUUID]. *)
Definition blobFilename (uuid mediaType : text) : text :=
  lit "temp-scans/" ++ uuid ++ lit "." ++ extensionOf mediaType.

(* ------------------------------------------------------------------ *)
(** ** Further vocabulary: calls and results                             *)
(* ------------------------------------------------------------------ *)

(** The calls to the three external services, without the console. *)
Definition is_external_call (ev : event) : bool :=
  match ev with
  | MessagesCreate _ _ => true
  | BlobPut _ _ => true
  | LensFetch _ _ => true
  | BlobDel _ => true
  | _ => false
  end.

Definition external_calls (t : list event) : list event := filter is_external_call t.

(** The media type an event hands to an external service, if any. *)
Definition media_type_of (ev : event) : option text :=
  match ev with
  | MessagesCreate _ m => Some m
  | BlobPut _ m => Some m
  | _ => None
  end.




(** A request whose body is the JSON text null. *)
Definition world_null_body : World := {|
  ANTHROPIC_API_KEY := Some (lit "sk-1");
  SERPAPI_KEY := None;
  BLOB_READ_WRITE_TOKEN := None;
  req_json := JSON_parse (lit "null");
  messages_create := fun _ _ => Err (ErrorObject (lit "Connection error."));
  blob_put := fun _ _ => Err (ErrorObject (lit "no token"));
  lens_fetch := fun _ _ => Err (ErrorObject (lit "unreachable"));
  blob_del := fun _ => Ok tt
|}.

(** A search whose second match is null. *)
Definition world_null_match : World := {|
  ANTHROPIC_API_KEY := Some (lit "sk-1");
  SERPAPI_KEY := Some (lit "k");
  BLOB_READ_WRITE_TOKEN := Some (lit "blob-1");
  req_json := JSON_parse (qlit "{'image':'aGVsbG8='}");
  messages_create := fun _ _ => Ok [TextBlock (qlit "{'description':'A red mug'}")];
  blob_put := fun _ _ => Ok (lit "u");
  lens_fetch := fun _ _ =>
    Ok {| status := 200;
          json_body := JSON_parse (qlit "{'visual_matches':[{'title':'a'},null]}") |};
  blob_del := fun _ => Ok tt
|}.


(* ------------------------------------------------------------------ *)
(** ** The results page: the title of a shared result                    *)
(* ------------------------------------------------------------------ *)

(** The class [[.!?]] of the separator. *)
Definition isSentenceEnd (c : N) : bool := ((c =? 46) || (c =? 33) || (c =? 63))%N.

(** Element 0 of [s.split(/[.!?]/)]: the text before the first unit of the
    class, the whole text when there is none. *)
Fixpoint first_piece (p : N -> bool) (s : text) : text :=
  match s with
  | [] => []
  | c :: r => if p c then [] else c :: first_piece p r
  end.

(** [result.description.split(/[.!?]/)[0].trim()] in [handleShare], for a
    description that is a string. *)
Definition shareTitle (description : text) : text :=
  trim (first_piece isSentenceEnd description).


(* ------------------------------------------------------------------ *)
(** ** The home page: what handleFile sends                              *)
(* ------------------------------------------------------------------ *)

(** [btoa] of a binary string, that is RFC 4648 base64 with padding; the
    argument is built with [String.fromCharCode] from the bytes of the file,
    so every unit is below 256 and [btoa] cannot throw. *)
Definition b64char (n : N) : N :=
  if (n <? 26)%N then (65 + n)%N           (* A..Z *)
  else if (n <? 52)%N then (71 + n)%N      (* a..z *)
  else if (n <? 62)%N then (n - 4)%N       (* 0..9 *)
  else if (n =? 62)%N then 43%N            (* + *)
  else 47%N.                               (* / *)

Fixpoint base64_encode (l : list N) : text :=
  match l with
  | [] => []
  | [a] => [b64char (a / 4); b64char ((a mod 4) * 16); 61; 61]%N
  | [a; b] =>
      [b64char (a / 4); b64char ((a mod 4) * 16 + b / 16); b64char ((b mod 16) * 4); 61]%N
  | a :: b :: c :: r =>
      [b64char (a / 4); b64char ((a mod 4) * 16 + b / 16);
       b64char ((b mod 16) * 4 + c / 64); b64char (c mod 64)]%N
      ++ base64_encode r
  end.

(** The binary string of the file content and its base64 text. *)
Definition fileBase64 (content : list Byte.byte) : text :=
  base64_encode (map Byte.to_N content).

(** [Buffer.from(data, "base64")] as Node decodes: a unit outside the
    alphabet (which includes the URL-safe - and _) is skipped, decoding
    stops at the first padding sign, four sextets give three bytes and a
    last group of two or three sextets gives one or two bytes. *)
Definition unbase64 (c : N) : option N :=
  if ((65 <=? c) && (c <=? 90))%N then Some (c - 65)%N
  else if ((97 <=? c) && (c <=? 122))%N then Some (c - 71)%N
  else if ((48 <=? c) && (c <=? 57))%N then Some (c + 4)%N
  else if ((c =? 43) || (c =? 45))%N then Some 62%N
  else if ((c =? 47) || (c =? 95))%N then Some 63%N
  else None.

Fixpoint sextets (s : text) : list N :=
  match s with
  | [] => []
  | c :: r =>
      if (c =? 61)%N then []
      else match unbase64 c with
           | Some v => v :: sextets r
           | None => sextets r
           end
  end.

Fixpoint bytes_of_sextets (q : list N) : list N :=
  match q with
  | a :: b :: c :: d :: r =>
      [a * 4 + b / 16; (b mod 16) * 16 + c / 4; (c mod 4) * 64 + d]%N ++ bytes_of_sextets r
  | [a; b; c] => [a * 4 + b / 16; (b mod 16) * 16 + c / 4]%N
  | [a; b] => [a * 4 + b / 16]%N
  | _ => []
  end.

(** The bytes [uploadImage] hands to [put]. *)
Definition uploadedBytes (data : text) : list N := bytes_of_sextets (sextets data).

(** [JSON.stringify] of a string (QuoteJSONString): the two-unit escapes,
    a Unicode escape with lower-case digits for the other control units and
    for a surrogate that is not part of a pair, every other unit as it is. *)
Definition hexDigit (n : N) : N := if (n <? 10)%N then (48 + n)%N else (87 + n)%N.

Definition unicodeEscape (c : N) : text :=
  [BACKSLASH; 117; hexDigit (c / 4096); hexDigit ((c / 256) mod 16);
   hexDigit ((c / 16) mod 16); hexDigit (c mod 16)]%N.

Definition shortEscape (c : N) : option N :=
  if (c =? 8)%N then Some 98%N
  else if (c =? 9)%N then Some 116%N
  else if (c =? 10)%N then Some 110%N
  else if (c =? 12)%N then Some 102%N
  else if (c =? 13)%N then Some 114%N
  else if (c =? 34)%N then Some 34%N
  else if (c =? 92)%N then Some 92%N
  else None.

Definition isLeadSurrogate (c : N) : bool := ((55296 <=? c) && (c <=? 56319))%N.
Definition isTrailSurrogate (c : N) : bool := ((56320 <=? c) && (c <=? 57343))%N.

Fixpoint quote_units (s : text) : text :=
  match s with
  | [] => []
  | c :: r =>
      match shortEscape c with
      | Some l => BACKSLASH :: l :: quote_units r
      | None =>
          if (c <? 32)%N then unicodeEscape c ++ quote_units r
          else if isLeadSurrogate c then
            match r with
            | d :: r' =>
                if isTrailSurrogate d then c :: d :: quote_units r'
                else unicodeEscape c ++ quote_units r
            | [] => unicodeEscape c
            end
          else if isTrailSurrogate c then unicodeEscape c ++ quote_units r
          else c :: quote_units r
      end
  end.

Definition stringify_string (s : text) : text := QUOTE :: quote_units s ++ [QUOTE].

(** [JSON.stringify({ image: base64, mediaType: file.type })]. *)
Definition clientRequestBody (base64 fileType : text) : text :=
  LBRACE :: stringify_string (lit "image") ++ COLON :: stringify_string base64
  ++ COMMA :: stringify_string (lit "mediaType") ++ COLON :: stringify_string fileType
  ++ [RBRACE].

(** The body [handleFile] posts to the scan route: nothing for a file whose
    type does not start with image/.  What [handleFile] does with the answer
    is not part of this model. *)
Definition handleFile_request (fileType : text) (content : list Byte.byte) : option text :=
  match match_prefix (lit "image/") fileType with
  | Some _ => Some (clientRequestBody (fileBase64 content) fileType)
  | None => None
  end.

(** A text is made of UTF-16 code units. *)
Definition utf16 (s : text) : Prop := Forall (fun c => (c < 65536)%N) s.


(** A parser step that puts one unit in front of what follows. *)
Definition continue_with (c : N) (r : presult text) : presult text :=
  match r with
  | POk t rest => POk (c :: t) rest
  | PError => PError
  | PFuel => PFuel
  end.


(* ------------------------------------------------------------------ *)
(** ** The earlier revision of the scan route                            *)
(* ------------------------------------------------------------------ *)

(** The earlier revision of the route parses the fence-stripped reply
    directly, returns whatever value it parses to, and recognises a parse
    failure by a message that starts with JSON.  The message of the
    SyntaxError is the engine's: it is a parameter here. *)
Section EarlierRoute.

Variable syntaxErrorMessage : text -> text.

Definition fetchClaudeAnalysis_v1 (w : World) (image mediaType : text) : M json :=
  content <- call (MessagesCreate image mediaType) (messages_create w image mediaType) ;;
  let cleaned := fenceStripped (rawTextOf content) in
  match parse_json_text cleaned with
  | POk v _ => ret v
  | PError => throw (ErrorObject (syntaxErrorMessage cleaned))
  | PFuel => throw (ErrorObject (syntaxErrorMessage cleaned))
  end.

(** The index keys 0, 1, ... of an array or a string. *)
Fixpoint indexed (i : N) (l : list field) : list (text * field) :=
  match l with
  | [] => []
  | x :: r => (decimal i, x) :: indexed (i + 1) r
  end.

(** [{ ...value }] for any parsed value: the properties of an object, the
    elements of an array and the units of a string under their indices,
    nothing for null, a boolean or a number. *)
Definition spread_value (v : json) : list (text * field) :=
  match v with
  | JObject o => spread o
  | JArray l => indexed 0 (map FJson l)
  | JString s => indexed 0 (map (fun c => FJson (JString [c])) s)
  | JNull => []
  | JBool _ => []
  | JNumber _ => []
  end.

Definition scanError_v1 (err : thrown) : list event * outcome :=
  let msg := match err with
             | ErrorObject m => m
             | OtherValue => lit "Unknown error"
             end in
  ([ConsoleError (lit "Scan error:") msg],
   match match_prefix (lit "JSON") msg with
   | Some _ =>
       Responded 502
         [(lit "error", FJson (JString (lit "Claude returned an unexpected response format.")));
          (lit "raw", FJson (JString msg))]
   | None => Responded 502 (error_body (lit "API request failed: " ++ msg))
   end).

Definition runScan_v1 (w : World) (image resolvedMediaType : text) : list event * outcome :=
  let (tA, claude) := fetchClaudeAnalysis_v1 w image resolvedMediaType in
  let (tB, web) := webResultsPromise w image resolvedMediaType in
  match claude, web with
  | Ok claudeResult, Ok webResults =>
      (tA ++ tB,
       Responded 200 (obj_set (spread_value claudeResult) (lit "webResults")
                              (FWebResults webResults)))
  | Err err, _ =>
      let (tC, r) := scanError_v1 err in (tA ++ tB ++ tC, r)
  | Ok _, Err err =>
      let (tC, r) := scanError_v1 err in (tA ++ tB ++ tC, r)
  end.

Definition POST_v1 (w : World) : list event * outcome :=
  match truthy_env (ANTHROPIC_API_KEY w) with
  | None =>
      ([], Responded 500 (error_body (lit "ANTHROPIC_API_KEY environment variable is not set.")))
  | Some _ =>
      match req_json w with
      | Err _ => ([], Responded 400 (error_body (lit "Invalid JSON body.")))
      | Ok body =>
          match get_prop body (lit "image"), get_prop body (lit "mediaType") with
          | Ok (JVal (JString (c :: r))), Ok mediaType =>
              runScan_v1 w (c :: r) (resolveMediaType mediaType)
          | Ok _, Ok _ =>
              ([], Responded 400 (error_body (lit "Missing base64 image in request body.")))
          | Err e, _ => ([], Uncaught e)
          | _, Err e => ([], Uncaught e)
          end
      end
  end.

End EarlierRoute.

(** The vision service replies with a bare JSON null. *)
Definition world_reply_null : World := {|
  ANTHROPIC_API_KEY := Some (lit "sk-1");
  SERPAPI_KEY := None;
  BLOB_READ_WRITE_TOKEN := None;
  req_json := JSON_parse (qlit "{'image':'aGVsbG8='}");
  messages_create := fun _ _ => Ok [TextBlock (lit "null")];
  blob_put := fun _ _ => Err (ErrorObject (lit "no token"));
  lens_fetch := fun _ _ => Err (ErrorObject (lit "unreachable"));
  blob_del := fun _ => Ok tt
|}.

(* ------------------------------------------------------------------ *)
(** * Facts about texts                                                  *)
(* ------------------------------------------------------------------ *)

Section TextFacts.

Lemma text_eqb_eq (a b : text) : text_eqb a b = true <-> a = b.
Proof.
  revert b; induction a as [|x a IH]; intros [|y b]; simpl; split;
    try congruence; try reflexivity.
  - intros H. apply andb_true_iff in H as [Hx Hr].
    apply N.eqb_eq in Hx. apply IH in Hr. congruence.
  - intros H. injection H as -> ->. rewrite N.eqb_refl. simpl. now apply IH.
Qed.

Lemma text_eqb_refl (a : text) : text_eqb a a = true.
Proof. now apply text_eqb_eq. Qed.

Lemma text_eqb_neq (a b : text) : a <> b -> text_eqb a b = false.
Proof.
  intros H. destruct (text_eqb a b) eqn:E; [|reflexivity].
  apply text_eqb_eq in E. contradiction.
Qed.


Lemma ws_nobrace (c : N) : isWhiteSpace c = true -> nobrace c.
Proof.
  intros H. split; intros ->; vm_compute in H; discriminate.
Qed.

Lemma jws_ws (c : N) : isJsonWhiteSpace c = true -> isWhiteSpace c = true.
Proof.
  unfold isJsonWhiteSpace. intros H.
  repeat (apply orb_true_iff in H as [H|H]); apply N.eqb_eq in H; subst; reflexivity.
Qed.

Lemma drop_while_split (p : N -> bool) (s : text) :
  exists pre, s = pre ++ drop_while p s /\ Forall (fun c => p c = true) pre.
Proof.
  induction s as [|c r (pre & E & F)]; simpl.
  - exists []. split; [reflexivity | constructor].
  - destruct (p c) eqn:Ec.
    + exists (c :: pre). split; [simpl; congruence | now constructor].
    + exists []. split; [reflexivity | constructor].
Qed.

Lemma drop_while_head (p : N -> bool) (s : text) (c : N) (r : text) :
  drop_while p s = c :: r -> p c = false.
Proof.
  induction s as [|x s IH]; simpl; [discriminate|].
  destruct (p x) eqn:Ex; [exact IH|].
  intros H. injection H as -> _. exact Ex.
Qed.

Lemma drop_while_length (p : N -> bool) (s : text) :
  length (drop_while p s) <= length s.
Proof.
  destruct (drop_while_split p s) as (pre & E & _).
  rewrite E at 2. rewrite length_app. lia.
Qed.

Lemma drop_while_id (p : N -> bool) (c : N) (r : text) :
  p c = false -> drop_while p (c :: r) = c :: r.
Proof. intros H. simpl. now rewrite H. Qed.

Lemma Forall_ws_nobrace (l : text) :
  Forall (fun c => isWhiteSpace c = true) l -> Forall nobrace l.
Proof. intros H. eapply Forall_impl; [|exact H]. apply ws_nobrace. Qed.

Lemma match_prefix_split (p s r : text) :
  match_prefix p s = Some r -> s = p ++ r.
Proof.
  revert s; induction p as [|a p IH]; intros [|c s]; simpl; try congruence.
  destruct (N.eqb_spec a c); [|discriminate].
  intros H. apply IH in H. congruence.
Qed.

Lemma match_prefix_app (p r : text) : match_prefix p (p ++ r) = Some r.
Proof. induction p as [|a p IH]; simpl; [reflexivity|]. now rewrite N.eqb_refl. Qed.

Lemma match_prefix_ci_split (p s r : text) :
  Forall (fun a => canonicalize a <> LBRACE /\ canonicalize a <> RBRACE) p ->
  match_prefix_ci p s = Some r ->
  exists pre, s = pre ++ r /\ Forall nobrace pre.
Proof.
  revert s; induction p as [|a p IH]; intros [|c s] Hp; simpl; try discriminate.
  - intros H; injection H as <-. exists []. split; [reflexivity|constructor].
  - intros H; injection H as <-. exists []. split; [reflexivity|constructor].
  - inversion Hp as [|? ? [Ha1 Ha2] Hp']; subst.
    destruct (N.eqb_spec (canonicalize a) (canonicalize c)) as [E|]; [|discriminate].
    intros H. destruct (IH _ Hp' H) as (pre & -> & F).
    exists (c :: pre). split; [reflexivity|]. constructor; [|exact F].
    split; intros ->; rewrite E in *; [apply Ha1 | apply Ha2]; reflexivity.
Qed.

Lemma replace_leading_fence_split (s : text) :
  exists pre, s = pre ++ replace_leading_fence s /\ Forall nobrace pre.
Proof.
  unfold replace_leading_fence.
  destruct (match_prefix_ci FENCE s) as [r|] eqn:E1.
  2:{ exists []. split; [reflexivity|constructor]. }
  apply match_prefix_ci_split in E1 as (p1 & -> & F1).
  2:{ repeat constructor; vm_compute; discriminate. }
  destruct (match_prefix_ci (lit "json") r) as [r'|] eqn:E2.
  - apply match_prefix_ci_split in E2 as (p2 & -> & F2).
    2:{ repeat constructor; vm_compute; discriminate. }
    destruct (drop_while_split isWhiteSpace r') as (p3 & E3 & F3).
    exists (p1 ++ p2 ++ p3). split.
    + unfold skip_ws. rewrite <- !app_assoc. now rewrite <- E3.
    + repeat (apply Forall_app; split); auto using Forall_ws_nobrace.
  - destruct (drop_while_split isWhiteSpace r) as (p3 & E3 & F3).
    exists (p1 ++ p3). split.
    + unfold skip_ws. rewrite <- !app_assoc. now rewrite <- E3.
    + apply Forall_app; split; auto using Forall_ws_nobrace.
Qed.

Lemma fence_nobrace : Forall nobrace FENCE.
Proof. repeat constructor; vm_compute; discriminate. Qed.

Lemma replace_trailing_fence_split (s : text) :
  exists post, s = replace_trailing_fence s ++ post /\ Forall nobrace post.
Proof.
  unfold replace_trailing_fence.
  destruct (match_prefix FENCE (skip_ws (rev s))) as [r|] eqn:E1.
  2:{ exists []. split; [now rewrite app_nil_r|constructor]. }
  apply match_prefix_split in E1.
  destruct (drop_while_split isWhiteSpace (rev s)) as (p1 & E2 & F1).
  destruct (drop_while_split isWhiteSpace r) as (p2 & E3 & F2).
  fold skip_ws in E2, E3.
  exists (rev p2 ++ rev FENCE ++ rev p1). split.
  - rewrite <- (rev_involutive s). rewrite E2, E1, E3 at 1.
    rewrite !rev_app_distr. now rewrite <- !app_assoc.
  - apply Forall_app; split; [|apply Forall_app; split]; apply Forall_rev;
      auto using Forall_ws_nobrace, fence_nobrace.
Qed.


Lemma trim_split (s : text) :
  exists pre post, s = pre ++ trim s ++ post /\ Forall nobrace pre /\ Forall nobrace post.
Proof.
  unfold trim.
  destruct (drop_while_split isWhiteSpace s) as (p1 & E1 & F1).
  destruct (drop_while_split isWhiteSpace (rev (skip_ws s))) as (p2 & E2 & F2).
  fold skip_ws in E1, E2 |- *.
  exists p1, (rev p2). repeat split; auto using Forall_ws_nobrace, Forall_rev.
  rewrite <- rev_app_distr, <- E2, rev_involutive. exact E1.
Qed.

Lemma trim_trimmed (s : text) : trimmed (trim s).
Proof.
  unfold trim. set (a := skip_ws s). set (b := skip_ws (rev a)).
  destruct (drop_while_split isWhiteSpace (rev a)) as (w & E & _).
  fold skip_ws in E. fold b in E.
  assert (Ea : a = rev b ++ rev w).
  { rewrite <- (rev_involutive a), E, rev_app_distr. reflexivity. }
  split; intros c r H.
  - destruct (rev b) as [|x t] eqn:Eb; [discriminate|].
    injection H as -> ->. rewrite Ea in *. simpl in *.
    eapply drop_while_head. unfold a, skip_ws in Ea. exact Ea.
  - assert (Hb : b = c :: rev r).
    { rewrite <- (rev_involutive b), H, rev_app_distr. reflexivity. }
    eapply drop_while_head. exact Hb.
Qed.

Lemma fenceStripped_split (raw : text) :
  exists pre post,
    raw = pre ++ fenceStripped raw ++ post /\ Forall nobrace pre /\ Forall nobrace post.
Proof.
  unfold fenceStripped.
  destruct (replace_leading_fence_split raw) as (p1 & E1 & F1).
  destruct (replace_trailing_fence_split (replace_leading_fence raw)) as (q1 & E2 & G1).
  destruct (trim_split (replace_trailing_fence (replace_leading_fence raw)))
    as (p2 & q2 & E3 & F2 & G2).
  exists (p1 ++ p2), (q2 ++ q1). repeat split; try (apply Forall_app; now split).
  rewrite E1 at 1. rewrite E2 at 1. rewrite E3 at 1.
  now rewrite <- !app_assoc.
Qed.

End TextFacts.

(* ------------------------------------------------------------------ *)
(** * Facts about the JSON parser                                        *)
(* ------------------------------------------------------------------ *)

Section ParserFacts.


Lemma pmap_ok {A B : Type} (f : A -> B) (r : presult A) (b : B) (rest : text) :
  pmap f r = POk b rest -> exists a, r = POk a rest /\ b = f a.
Proof.
  destruct r; simpl; try discriminate.
  intros H; injection H as <- <-. eauto.
Qed.

Lemma skip_jws_split (s : text) :
  exists w, s = w ++ skip_jws s /\ Forall (fun c => isJsonWhiteSpace c = true) w.
Proof. apply drop_while_split. Qed.

Lemma parse_chars_split_len (n : nat) :
  forall s t rest, length s <= n -> parse_chars s = POk t rest -> exists c, s = c ++ rest.
Proof.
  induction n as [|n IH]; intros s t rest Hl H.
  - destruct s; simpl in *; [discriminate | lia].
  - destruct s as [|c r]; simpl in H; [discriminate|].
    brk H. { injection H as _ <-. now exists [c]. }
    brk H.
    + destruct r as [|d r1]; [discriminate|]. brk H.
      * destruct r1 as [|h1 [|h2 [|h3 [|h4 r2]]]]; try discriminate.
        repeat (brk H; try discriminate).
        injection H as _ <-.
        match goal with E : parse_chars r2 = _ |- _ => apply IH in E as (c' & ->) end.
        -- now exists (c :: d :: h1 :: h2 :: h3 :: h4 :: c').
        -- simpl in Hl. lia.
      * repeat (brk H; try discriminate). injection H as _ <-.
        match goal with E : parse_chars r1 = _ |- _ => apply IH in E as (c' & ->) end.
        -- now exists (c :: d :: c').
        -- simpl in Hl. lia.
    + repeat (brk H; try discriminate). injection H as _ <-.
      match goal with E : parse_chars r = _ |- _ => apply IH in E as (c' & ->) end.
      -- now exists (c :: c').
      -- simpl in Hl. lia.
Qed.

Lemma parse_chars_split (s t rest : text) :
  parse_chars s = POk t rest -> exists c, s = c ++ rest.
Proof. apply (parse_chars_split_len (length s)). lia. Qed.

Lemma parse_chars_fuel_len (n : nat) :
  forall s, length s <= n -> parse_chars s <> PFuel.
Proof.
  induction n as [|n IH]; intros s Hl H.
  - destruct s; simpl in *; [discriminate | lia].
  - destruct s as [|c r]; simpl in H; [discriminate|].
    repeat (brk H; try discriminate);
      match goal with E : parse_chars ?x = PFuel |- _ => apply IH in E; [exact E|] end;
      subst; simpl in Hl; lia.
Qed.

Lemma parse_chars_fuel (s : text) : parse_chars s <> PFuel.
Proof. apply (parse_chars_fuel_len (length s)). lia. Qed.

Lemma take_digits_split (s ds rest : text) :
  take_digits s = (ds, rest) -> s = ds ++ rest.
Proof.
  revert ds rest; induction s as [|c r IH]; simpl; intros ds rest H.
  - now injection H as <- <-.
  - destruct (isDigit c).
    + destruct (take_digits r) as [ds' rest'] eqn:E. injection H as <- <-.
      simpl. f_equal. now apply IH.
    + now injection H as <- <-.
Qed.

Lemma parse_int_split (s t rest : text) :
  parse_int s = POk t rest -> s = t ++ rest.
Proof.
  unfold parse_int. intros H.
  destruct s as [|c r]; [discriminate|].
  brk H. { now injection H as <- <-. }
  brk H; [|discriminate].
  destruct (take_digits r) as [ds rest'] eqn:E.
  injection H as <- <-. apply take_digits_split in E. simpl. now f_equal.
Qed.

Lemma parse_frac_split (s t rest : text) :
  parse_frac s = POk t rest -> s = t ++ rest.
Proof.
  unfold parse_frac. intros H.
  destruct s as [|c r]; [now injection H as <- <-|].
  brk H; [|now injection H as <- <-].
  destruct (take_digits r) as [ds rest'] eqn:E.
  apply take_digits_split in E.
  destruct ds; [discriminate|]. injection H as <- <-. simpl in *. now f_equal.
Qed.

Lemma parse_exp_split (s t rest : text) :
  parse_exp s = POk t rest -> s = t ++ rest.
Proof.
  unfold parse_exp. intros H.
  destruct s as [|c r]; [now injection H as <- <-|].
  brk H; [|now injection H as <- <-].
  match type of H with
  | (let (_, _) := ?x in _) = _ => destruct x as [sign r1] eqn:Es
  end.
  assert (Er : r = sign ++ r1).
  { destruct r as [|d r']; [now injection Es as <- <-|].
    brk Es; now injection Es as <- <-. }
  destruct (take_digits r1) as [ds rest'] eqn:E.
  apply take_digits_split in E.
  destruct ds; [discriminate|]. injection H as <- <-.
  subst. simpl. f_equal. now rewrite <- app_assoc.
Qed.

Lemma parse_number_split (s t rest : text) :
  parse_number s = POk t rest -> exists c, s = c ++ rest.
Proof.
  unfold parse_number. intros H.
  match type of H with
  | (let (_, _) := ?x in _) = _ => destruct x as [sign s0] eqn:Es
  end.
  assert (E0 : s = sign ++ s0).
  { destruct s as [|d r']; [now injection Es as <- <-|].
    brk Es; now injection Es as <- <-. }
  destruct (parse_int s0) as [i s1| |] eqn:Ei; try discriminate.
  destruct (parse_frac s1) as [f s2| |] eqn:Ef; try discriminate.
  destruct (parse_exp s2) as [e s3| |] eqn:Ee; try discriminate.
  injection H as <- <-.
  apply parse_int_split in Ei. apply parse_frac_split in Ef. apply parse_exp_split in Ee.
  exists (sign ++ i ++ f ++ e). subst. now rewrite <- !app_assoc.
Qed.

Lemma parse_number_fuel (s : text) : parse_number s <> PFuel.
Proof.
  assert (Hi : forall x, parse_int x <> PFuel).
  { intros x. unfold parse_int. repeat brk_goal; discriminate. }
  assert (Hf : forall x, parse_frac x <> PFuel).
  { intros x. unfold parse_frac. repeat brk_goal; discriminate. }
  assert (He : forall x, parse_exp x <> PFuel).
  { intros x. unfold parse_exp. repeat brk_goal; discriminate. }
  unfold parse_number.
  match goal with
  | |- (let (_, _) := ?x in _) <> _ => destruct x as [sign s0]
  end.
  destruct (parse_int s0) as [i s1| |] eqn:Ei; try discriminate; [|now apply Hi in Ei].
  destruct (parse_frac s1) as [f s2| |] eqn:Ef; try discriminate; [|now apply Hf in Ef].
  destruct (parse_exp s2) as [e s3| |] eqn:Ee; try discriminate. now apply He in Ee.
Qed.

Lemma parse_keyword_split (w : text) (v : json) (s : text) (v' : json) (rest : text) :
  parse_keyword w v s = POk v' rest -> s = w ++ rest /\ v' = v.
Proof.
  unfold parse_keyword. destruct (match_prefix w s) eqn:E; [|discriminate].
  intros H; injection H as <- <-. split; [now apply match_prefix_split | reflexivity].
Qed.

(** What a successful parse has read is a prefix of its input; an object
    runs from an opening to a closing brace, and the members of an object
    end with the closing brace. *)
Lemma parser_split (n : nat) :
  (forall s v rest, parse_value n s = POk v rest ->
     exists c, s = c ++ rest /\
       forall o, v = JObject o -> exists mid, c = LBRACE :: mid ++ [RBRACE]) /\
  (forall acc s o rest, parse_members n acc s = POk o rest ->
     exists c, s = c ++ RBRACE :: rest) /\
  (forall s l rest, parse_elements n s = POk l rest -> exists c, s = c ++ rest).
Proof.
  induction n as [|n (IHv & IHm & IHe)].
  - repeat split; intros; discriminate.
  - split; [|split].
    + intros s v rest H. cbn [parse_value] in H.
      destruct s as [|c r]; [discriminate|].
      destruct (N.eqb_spec c LBRACE) as [->|Hc].
      { destruct (skip_jws_split r) as (w & Er & _).
        destruct (skip_jws r) as [|d r'] eqn:Es; [discriminate|].
        destruct (N.eqb_spec d RBRACE) as [->|Hd].
        - injection H as <- <-. exists (LBRACE :: w ++ [RBRACE]). split.
          + rewrite Er. simpl. now rewrite <- app_assoc.
          + intros; eexists; reflexivity.
        - apply pmap_ok in H as (o' & H & ->). apply IHm in H as (c' & E).
          exists (LBRACE :: w ++ c' ++ [RBRACE]). split.
          + rewrite Er, E. simpl. now rewrite <- !app_assoc.
          + intros _ _. exists (w ++ c'). now rewrite <- app_assoc. }
      destruct (N.eqb_spec c LBRACKET) as [->|Hc'].
      { destruct (skip_jws_split r) as (w & Er & _).
        destruct (skip_jws r) as [|d r'] eqn:Es; [discriminate|].
        destruct (N.eqb_spec d RBRACKET) as [->|Hd].
        - injection H as <- <-. exists (LBRACKET :: w ++ [RBRACKET]). split.
          + rewrite Er. simpl. now rewrite <- app_assoc.
          + intros; discriminate.
        - apply pmap_ok in H as (l' & H & ->). apply IHe in H as (c' & E).
          exists (LBRACKET :: w ++ c'). split.
          + rewrite Er, E. simpl. now rewrite <- !app_assoc.
          + intros; discriminate. }
      destruct (N.eqb_spec c QUOTE) as [->|Hq].
      { apply pmap_ok in H as (t & H & ->). apply parse_chars_split in H as (c' & ->).
        exists (QUOTE :: c'). split; [reflexivity | intros; discriminate]. }
      destruct (c =? 116)%N.
      { apply parse_keyword_split in H as (-> & ->). eexists. split; [reflexivity | intros; discriminate]. }
      destruct (c =? 102)%N.
      { apply parse_keyword_split in H as (-> & ->). eexists. split; [reflexivity | intros; discriminate]. }
      destruct (c =? 110)%N.
      { apply parse_keyword_split in H as (-> & ->). eexists. split; [reflexivity | intros; discriminate]. }
      destruct ((c =? MINUS)%N || isDigit c); [|discriminate].
      apply pmap_ok in H as (t & H & ->). apply parse_number_split in H as (c' & ->).
      exists c'. split; [reflexivity | intros; discriminate].
    + intros acc s o rest H. cbn [parse_members] in H.
      destruct s as [|c r]; [discriminate|].
      destruct (c =? QUOTE)%N; [|discriminate].
      destruct (parse_chars r) as [k s1| |] eqn:Ek; try discriminate.
      apply parse_chars_split in Ek as (ck & ->).
      destruct (skip_jws_split s1) as (w1 & E1 & _).
      destruct (skip_jws s1) as [|c1 s2]; [discriminate|].
      destruct (c1 =? COLON)%N; [|discriminate].
      destruct (skip_jws_split s2) as (w2 & E2 & _).
      destruct (parse_value n (skip_jws s2)) as [v s3| |] eqn:Ev; try discriminate.
      apply IHv in Ev as (cv & Ev & _).
      destruct (skip_jws_split s3) as (w3 & E3 & _).
      destruct (skip_jws s3) as [|c2 s4]; [discriminate|].
      destruct (c2 =? COMMA)%N.
      * destruct (skip_jws_split s4) as (w4 & E4 & _).
        apply IHm in H as (cm & Em).
        exists (c :: ck ++ w1 ++ c1 :: w2 ++ cv ++ w3 ++ c2 :: w4 ++ cm).
        rewrite E1, E2, Ev, E3, E4, Em. simpl.
        repeat (rewrite <- ?app_assoc; simpl). reflexivity.
      * destruct (N.eqb_spec c2 RBRACE) as [->|]; [|discriminate].
        injection H as _ <-.
        exists (c :: ck ++ w1 ++ c1 :: w2 ++ cv ++ w3).
        rewrite E1, E2, Ev, E3. simpl.
        repeat (rewrite <- ?app_assoc; simpl). reflexivity.
    + intros s l rest H. cbn [parse_elements] in H.
      destruct (parse_value n s) as [v s1| |] eqn:Ev; try discriminate.
      apply IHv in Ev as (cv & Ev & _).
      destruct (skip_jws_split s1) as (w1 & E1 & _).
      destruct (skip_jws s1) as [|c s2]; [discriminate|].
      destruct (c =? COMMA)%N.
      * destruct (skip_jws_split s2) as (w2 & E2 & _).
        destruct (parse_elements n (skip_jws s2)) as [vs rest'| |] eqn:Ee; try discriminate.
        injection H as _ <-. apply IHe in Ee as (ce & Ee).
        exists (cv ++ w1 ++ c :: w2 ++ ce).
        rewrite Ev, E1, E2, Ee. repeat (rewrite <- ?app_assoc; simpl). reflexivity.
      * destruct (c =? RBRACKET)%N; [|discriminate].
        injection H as _ <-.
        exists (cv ++ w1 ++ [c]).
        rewrite Ev, E1. repeat (rewrite <- ?app_assoc; simpl). reflexivity.
Qed.


(** The recursion budget of [parse_json_text] is never exhausted. *)
Lemma parser_fuel (n : nat) :
  (forall s, 2 * length s + 1 <= n -> parse_value n s <> PFuel) /\
  (forall acc s, 2 * length s + 1 <= n -> parse_members n acc s <> PFuel) /\
  (forall s, 2 * length s + 2 <= n -> parse_elements n s <> PFuel).
Proof.
  induction n as [|n (IHv & IHm & IHe)].
  - repeat split; intros; simpl in *; lia.
  - split; [|split].
    + intros s Hn H. cbn [parse_value] in H.
      destruct s as [|c r]; [discriminate|]. simpl in Hn.
      destruct (c =? LBRACE)%N.
      { pose proof (drop_while_length isJsonWhiteSpace r) as Hl. fold skip_jws in Hl.
        destruct (skip_jws r) as [|d r'] eqn:Es; [discriminate|].
        destruct (d =? RBRACE)%N; [discriminate|].
        destruct (parse_members n [] (d :: r')) eqn:Em; try discriminate.
        apply IHm in Em; [exact Em|]. simpl in *. lia. }
      destruct (c =? LBRACKET)%N.
      { pose proof (drop_while_length isJsonWhiteSpace r) as Hl. fold skip_jws in Hl.
        destruct (skip_jws r) as [|d r'] eqn:Es; [discriminate|].
        destruct (d =? RBRACKET)%N; [discriminate|].
        destruct (parse_elements n (d :: r')) eqn:Em; try discriminate.
        apply IHe in Em; [exact Em|]. simpl in *. lia. }
      destruct (c =? QUOTE)%N.
      { destruct (parse_chars r) eqn:Ec; try discriminate. now apply parse_chars_fuel in Ec. }
      unfold parse_keyword in H.
      do 3 (brk H; [brk H; discriminate|]).
      brk H; [|discriminate].
      destruct (parse_number (c :: r)) eqn:En; try discriminate.
      now apply parse_number_fuel in En.
    + intros acc s Hn H. cbn [parse_members] in H.
      destruct s as [|c r]; [discriminate|]. simpl in Hn.
      destruct (c =? QUOTE)%N; [|discriminate].
      destruct (parse_chars r) as [k s1| |] eqn:Ek; try discriminate;
        [|now apply parse_chars_fuel in Ek].
      apply parse_chars_split in Ek as (ck & Ek). lens Ek.
      destruct (skip_jws_split s1) as (w1 & E1 & _). lens E1.
      destruct (skip_jws s1) as [|c1 s2]; [discriminate|].
      destruct (c1 =? COLON)%N; [|discriminate].
      destruct (skip_jws_split s2) as (w2 & E2 & _). lens E2.
      destruct (parse_value n (skip_jws s2)) as [v s3| |] eqn:Ev; try discriminate.
      2:{ apply IHv in Ev; [exact Ev|]. simpl in *. lia. }
      apply (proj1 (parser_split n)) in Ev as (cv & Ev & _). lens Ev.
      destruct (skip_jws_split s3) as (w3 & E3 & _). lens E3.
      destruct (skip_jws s3) as [|c2 s4]; [discriminate|].
      destruct (c2 =? COMMA)%N.
      * destruct (skip_jws_split s4) as (w4 & E4 & _). lens E4.
        apply IHm in H; [exact H|]. simpl in *. lia.
      * destruct (c2 =? RBRACE)%N; discriminate.
    + intros s Hn H. cbn [parse_elements] in H.
      destruct (parse_value n s) as [v s1| |] eqn:Ev; try discriminate.
      2:{ apply IHv in Ev; [exact Ev|]. lia. }
      apply (proj1 (parser_split n)) in Ev as (cv & Ev & _). lens Ev.
      destruct (skip_jws_split s1) as (w1 & E1 & _). lens E1.
      destruct (skip_jws s1) as [|c s2]; [discriminate|].
      destruct (c =? COMMA)%N.
      * destruct (skip_jws_split s2) as (w2 & E2 & _). lens E2.
        destruct (parse_elements n (skip_jws s2)) as [vs rest'| |] eqn:Ee; try discriminate.
        apply IHe in Ee; [exact Ee|]. simpl in *. lia.
      * destruct (c =? RBRACKET)%N; discriminate.
Qed.

Theorem parse_json_text_fuel (s : text) : parse_json_text s <> PFuel.
Proof.
  unfold parse_json_text. intros H.
  destruct (parse_value (2 * length s + 2) (skip_jws s)) as [v rest| |] eqn:E;
    try discriminate.
  - destruct (skip_jws rest); discriminate.
  - apply (proj1 (parser_fuel _)) in E; [exact E|].
    pose proof (drop_while_length isJsonWhiteSpace s) as Hl. fold skip_jws in Hl. lia.
Qed.

(** A text that parses to an object is an opening brace, a body and a
    closing brace between optional JSON white space. *)
Lemma JSON_parse_object_shape (c : text) (o : list (text * json)) :
  JSON_parse c = Ok (JObject o) ->
  exists w1 mid w2,
    c = w1 ++ (LBRACE :: mid ++ [RBRACE]) ++ w2 /\
    Forall (fun x => isJsonWhiteSpace x = true) w1 /\
    Forall (fun x => isJsonWhiteSpace x = true) w2.
Proof.
  unfold JSON_parse, parse_json_text. intros H.
  destruct (parse_value (2 * length c + 2) (skip_jws c)) as [v rest| |] eqn:E;
    try discriminate.
  destruct (skip_jws_split c) as (w1 & E1 & F1).
  destruct (skip_jws_split rest) as (w2 & E2 & F2).
  destruct (skip_jws rest); [|discriminate].
  injection H as ->.
  apply (proj1 (parser_split _)) in E as (cv & Ev & Hobj).
  destruct (Hobj o eq_refl) as (mid & ->).
  exists w1, mid, w2. repeat split; auto.
  rewrite E1 at 1. rewrite Ev. rewrite E2, app_nil_r. reflexivity.
Qed.

(** With no white space at either end, the text itself runs from brace to
    brace. *)
Lemma JSON_parse_object_trimmed (c : text) (o : list (text * json)) :
  trimmed c -> JSON_parse c = Ok (JObject o) ->
  exists mid, c = LBRACE :: mid ++ [RBRACE].
Proof.
  intros [Hh Hl] H.
  apply JSON_parse_object_shape in H as (w1 & mid & w2 & E & F1 & F2).
  destruct w1 as [|x w1].
  - destruct (rev w2) as [|y t] eqn:Er.
    + assert (w2 = []) by (rewrite <- (rev_involutive w2), Er; reflexivity).
      subst. exists mid. simpl. now rewrite app_nil_r.
    + assert (E2 : w2 = rev t ++ [y]) by (rewrite <- (rev_involutive w2), Er; reflexivity).
      exfalso.
      assert (Hy : isJsonWhiteSpace y = true).
      { rewrite E2 in F2. apply Forall_app in F2 as [_ F2]. now inversion F2. }
      apply jws_ws in Hy.
      rewrite (Hl y ([] ++ (LBRACE :: mid ++ [RBRACE]) ++ rev t)) in Hy; [discriminate|].
      rewrite E, E2. simpl. now rewrite <- !app_assoc.
  - exfalso. inversion F1 as [|? ? Hx _]; subst. apply jws_ws in Hx.
    rewrite (Hh x (w1 ++ (LBRACE :: mid ++ [RBRACE]) ++ w2)) in Hx; [discriminate|].
    reflexivity.
Qed.

End ParserFacts.

(* ------------------------------------------------------------------ *)
(** * Facts about the candidates of extractJson                          *)
(* ------------------------------------------------------------------ *)

Section CandidateFacts.

Lemma indexOf_absent (c : N) (s : text) :
  Forall (fun x => x <> c) s -> indexOf c s = (-1)%Z.
Proof.
  induction 1 as [|x s Hx _ IH]; simpl; [reflexivity|].
  destruct (N.eqb_spec x c); [contradiction|]. now rewrite IH.
Qed.

Lemma lastIndexOf_absent (c : N) (s : text) :
  Forall (fun x => x <> c) s -> lastIndexOf c s = (-1)%Z.
Proof.
  induction 1 as [|x s Hx _ IH]; simpl; [reflexivity|].
  rewrite IH. simpl. destruct (N.eqb_spec x c); [contradiction|reflexivity].
Qed.

Lemma indexOf_first (c : N) (pre r : text) :
  Forall (fun x => x <> c) pre ->
  indexOf c (pre ++ c :: r) = Z.of_nat (length pre).
Proof.
  induction 1 as [|x pre Hx _ IH]; simpl indexOf.
  - now rewrite N.eqb_refl.
  - destruct (N.eqb_spec x c); [contradiction|]. rewrite IH.
    destruct (Z.ltb_spec (Z.of_nat (length pre)) 0); simpl length; lia.
Qed.

Lemma lastIndexOf_last (c : N) (a post : text) :
  Forall (fun x => x <> c) post ->
  lastIndexOf c (a ++ c :: post) = Z.of_nat (length a).
Proof.
  intros F. induction a as [|x a IH]; simpl lastIndexOf.
  - rewrite (lastIndexOf_absent _ _ F). simpl. now rewrite N.eqb_refl.
  - rewrite IH. destruct (Z.ltb_spec (Z.of_nat (length a)) 0); simpl length; lia.
Qed.

Lemma slice_middle (pre m post : text) :
  slice (pre ++ m ++ post) (Z.of_nat (length pre)) (Z.of_nat (length pre + length m)) = m.
Proof.
  unfold slice. rewrite !length_app.
  destruct (Z.ltb_spec (Z.of_nat (length pre)) 0); [lia|].
  destruct (Z.ltb_spec (Z.of_nat (length pre + length m)) 0); [lia|].
  rewrite Z.min_l by lia. rewrite Z.min_l by lia.
  rewrite Nat2Z.id.
  replace (Z.to_nat (Z.of_nat (length pre + length m) - Z.of_nat (length pre)))
    with (length m) by lia.
  rewrite skipn_app, skipn_all, Nat.sub_diag. simpl.
  rewrite firstn_app, firstn_all, Nat.sub_diag. simpl. now rewrite app_nil_r.
Qed.

Lemma slice_substring (s : text) (a b : Z) :
  exists pre post, s = pre ++ slice s a b ++ post.
Proof.
  assert (G : forall j k, exists pre post, s = pre ++ firstn k (skipn j s) ++ post).
  { intros j k. exists (firstn j s), (skipn k (skipn j s)).
    now rewrite firstn_skipn, firstn_skipn. }
  unfold slice. apply G.
Qed.

Lemma upto_last_absent (c : N) (s : text) :
  Forall (fun x => x <> c) s -> upto_last c s = None.
Proof.
  induction 1 as [|x s Hx _ IH]; simpl; [reflexivity|].
  rewrite IH. destruct (N.eqb_spec x c); [contradiction|reflexivity].
Qed.

Lemma upto_last_app (c : N) (m post : text) :
  Forall (fun x => x <> c) post ->
  upto_last c (m ++ c :: post) = Some (m ++ [c]).
Proof.
  intros F. induction m as [|x m IH]; simpl.
  - rewrite (upto_last_absent _ _ F). now rewrite N.eqb_refl.
  - now rewrite IH.
Qed.

Lemma upto_last_prefix (c : N) (s p : text) :
  upto_last c s = Some p -> exists post, s = p ++ post.
Proof.
  revert p; induction s as [|x s IH]; simpl; intros p H; [discriminate|].
  destruct (upto_last c s) as [q|] eqn:E.
  - injection H as <-. destruct (IH _ eq_refl) as (post & ->). now exists post.
  - destruct (x =? c)%N; [|discriminate]. injection H as <-. now exists s.
Qed.

Lemma match_braces_app (pre mid post : text) :
  Forall (fun x => x <> LBRACE) pre ->
  Forall (fun x => x <> RBRACE) post ->
  match_braces (pre ++ (LBRACE :: mid ++ [RBRACE]) ++ post)
  = Some (LBRACE :: mid ++ [RBRACE]).
Proof.
  intros Fp Fq. induction Fp as [|x pre Hx _ IH]; simpl.
  - rewrite <- app_assoc. simpl. now rewrite (upto_last_app _ mid _ Fq).
  - destruct (N.eqb_spec x LBRACE); [contradiction|]. exact IH.
Qed.

Lemma match_braces_substring (s m : text) :
  match_braces s = Some m -> exists pre post, s = pre ++ m ++ post.
Proof.
  induction s as [|x s IH]; simpl; [discriminate|].
  assert (Hrec : match_braces s = Some m -> exists pre post, x :: s = pre ++ m ++ post).
  { intros H. destruct (IH H) as (pre & post & ->). now exists (x :: pre), post. }
  destruct (x =? LBRACE)%N; [|exact Hrec].
  destruct (upto_last RBRACE s) as [p|] eqn:E; [|exact Hrec].
  intros H. injection H as <-. apply upto_last_prefix in E as (post & ->).
  now exists [], post.
Qed.

(** The text between the first opening and the last closing brace. *)
Lemma attempts_of_span (pre mid post : text) :
  Forall (fun x => x <> LBRACE) pre ->
  Forall (fun x => x <> RBRACE) post ->
  attempts (pre ++ (LBRACE :: mid ++ [RBRACE]) ++ post)
  = [fenceStripped (pre ++ (LBRACE :: mid ++ [RBRACE]) ++ post);
     LBRACE :: mid ++ [RBRACE]; LBRACE :: mid ++ [RBRACE]].
Proof.
  intros Fp Fq. unfold attempts.
  rewrite (match_braces_app _ mid _ Fp Fq).
  set (J := LBRACE :: mid ++ [RBRACE]).
  assert (E1 : indexOf LBRACE (pre ++ J ++ post) = Z.of_nat (length pre)).
  { unfold J. simpl. now apply indexOf_first. }
  assert (E2 : lastIndexOf RBRACE (pre ++ J ++ post)
               = Z.of_nat (length pre + length mid + 1)).
  { unfold J. simpl.
    replace (pre ++ LBRACE :: (mid ++ [RBRACE]) ++ post)
      with ((pre ++ LBRACE :: mid) ++ RBRACE :: post)
      by (rewrite <- !app_assoc; reflexivity).
    rewrite (lastIndexOf_last _ _ _ Fq), length_app. simpl. f_equal. lia. }
  rewrite E1, E2.
  replace (Z.of_nat (length pre + length mid + 1) + 1)%Z
    with (Z.of_nat (length pre + length J))
    by (unfold J; simpl; rewrite length_app; simpl; lia).
  rewrite slice_middle.
  destruct (Z.eqb_spec (Z.of_nat (length pre)) (-1)); [lia|].
  destruct (Z.gtb_spec (Z.of_nat (length pre + length mid + 1)) (Z.of_nat (length pre)));
    [reflexivity|lia].
Qed.

Lemma attempts_substring (raw c : text) :
  In c (attempts raw) -> exists pre post, raw = pre ++ c ++ post.
Proof.
  unfold attempts. intros H. apply in_app_or in H as [H|H].
  - destruct H as [<-|[]].
    destruct (fenceStripped_split raw) as (pre & post & E & _). eauto.
  - apply in_app_or in H as [H|H].
    + destruct (_ && _); [|contradiction]. destruct H as [<-|[]]. apply slice_substring.
    + destruct (match_braces raw) as [m|] eqn:E; [|contradiction].
      destruct H as [<-|[]]. now apply match_braces_substring.
Qed.

Lemma fenceStripped_trimmed (raw : text) : trimmed (fenceStripped raw).
Proof. apply trim_trimmed. Qed.

(** The loop returns an object only from a candidate that parses to it. *)
Lemma extract_loop_some (cs : list text) (o : list (text * json)) :
  extract_loop cs = Ok (Some o) ->
  exists c, In c cs /\ JSON_parse c = Ok (JObject o).
Proof.
  induction cs as [|c cs IH]; simpl; [discriminate|].
  destruct (JSON_parse c) as [v|e] eqn:E.
  - destruct v; simpl; try (intros H; destruct (IH H) as (c' & Hin & Hp); eauto).
    intros H; injection H as <-. eauto.
  - intros H; destruct (IH H) as (c' & Hin & Hp); eauto.
Qed.

Lemma extract_loop_total (cs : list text) : exists r, extract_loop cs = Ok r.
Proof.
  induction cs as [|c cs IH]; simpl; [eauto|].
  destruct (JSON_parse c) as [v|e]; [|exact IH].
  destruct (accepted v); eauto.
Qed.

Lemma extract_loop_none (cs : list text) :
  (forall c o, In c cs -> JSON_parse c <> Ok (JObject o)) ->
  extract_loop cs = Ok None.
Proof.
  intros H. destruct (extract_loop_total cs) as ([o|] & E); [|exact E].
  apply extract_loop_some in E as (c & Hin & Hp). now apply H in Hp.
Qed.

End CandidateFacts.

(* ------------------------------------------------------------------ *)
(** * Properties of extractJson                                          *)
(* ------------------------------------------------------------------ *)

Section Extraction.

Lemma nobrace_not_open (l : text) : Forall nobrace l -> Forall (fun x => x <> LBRACE) l.
Proof. intros H. eapply Forall_impl; [|exact H]. now intros a [Ha _]. Qed.

Lemma nobrace_not_close (l : text) : Forall nobrace l -> Forall (fun x => x <> RBRACE) l.
Proof. intros H. eapply Forall_impl; [|exact H]. now intros a [_ Ha]. Qed.

(** When the fence-stripped text parses to an object, it is the text from
    the first opening to the last closing brace: the three strategies agree. *)
Lemma fenceStripped_object_span (raw : text) (o : list (text * json)) :
  JSON_parse (fenceStripped raw) = Ok (JObject o) ->
  attempts raw = [fenceStripped raw; fenceStripped raw; fenceStripped raw].
Proof.
  intros E.
  destruct (JSON_parse_object_trimmed _ _ (fenceStripped_trimmed raw) E) as (mid & Efs).
  destruct (fenceStripped_split raw) as (pre & post & Eraw & Fpre & Fpost).
  rewrite Efs in Eraw.
  pose proof (attempts_of_span pre mid post (nobrace_not_open _ Fpre)
                (nobrace_not_close _ Fpost)) as A.
  rewrite <- Eraw in A. rewrite <- Efs in A. exact A.
Qed.

(** C1 as stated fails: a closing brace in the prose after the object
    defeats all three strategies, although the text [T0] holds exactly one
    well-formed JSON object, [J0]. *)
Lemma extractJson_prose_brace_counterexample :
  JSON_parse J0 = Ok (JObject [(lit "description", JString (lit "A red mug"))]) /\
  only_object_in T0 J0 = true /\
  extractJson T0 = Ok None.
Proof. vm_compute. repeat split. Qed.

(** C1 (amended): when the text is prose without an opening brace, then a
    well-formed JSON object text from its opening to its closing brace, then
    prose without a closing brace, extractJson returns exactly the
    properties of that object. *)
Theorem extractJson_embedded_object (P mid S : text) (o : list (text * json)) :
  JSON_parse (LBRACE :: mid ++ [RBRACE]) = Ok (JObject o) ->
  Forall (fun x => x <> LBRACE) P ->
  Forall (fun x => x <> RBRACE) S ->
  extractJson (P ++ (LBRACE :: mid ++ [RBRACE]) ++ S) = Ok (Some o).
Proof.
  intros HJ FP FS. unfold extractJson.
  pose proof (attempts_of_span P mid S FP FS) as A. rewrite A.
  cbn [extract_loop].
  destruct (JSON_parse (fenceStripped _)) as [v|e] eqn:E.
  2:{ now rewrite HJ. }
  destruct v; cbn [accepted]; try (now rewrite HJ).
  apply fenceStripped_object_span in E as A'. rewrite A in A'.
  injection A' as A'. rewrite <- A' in E at 1. rewrite HJ in E.
  now injection E as ->.
Qed.

Lemma extractJson_embedded_object_witness :
  extractJson (lit "Sure! ``` " ++ qlit "{'description':'A red mug'}" ++ lit " ``` Enjoy {")
  = Ok (Some [(lit "description", JString (lit "A red mug"))]).
Proof.
  apply (extractJson_embedded_object (lit "Sure! ``` ") (qlit "'description':'A red mug'")
           (lit " ``` Enjoy {")).
  - vm_compute. reflexivity.
  - repeat constructor; vm_compute; discriminate.
  - repeat constructor; vm_compute; discriminate.
Defined.

(** C7: extractJson never throws; a candidate that parses to null, an
    array or a primitive is passed over; a result is always the object that
    one of the candidates parses to. *)
Theorem extractJson_accepts_only_objects (raw : text) :
  (exists r, extractJson raw = Ok r) /\
  (forall o, extractJson raw = Ok (Some o) ->
     exists c, In c (attempts raw) /\ JSON_parse c = Ok (JObject o)) /\
  (forall c v rest, JSON_parse c = Ok v -> (forall o, v <> JObject o) ->
     accepted v = None /\ extract_loop (c :: rest) = extract_loop rest).
Proof.
  repeat split.
  - apply extract_loop_total.
  - intros o. apply extract_loop_some.
  - destruct v; try reflexivity. now destruct (H0 props).
  - cbn [extract_loop]. rewrite H. destruct v; try reflexivity. now destruct (H0 props).
Qed.

Lemma extractJson_accepts_only_objects_witness :
  (exists c, In c (attempts (qlit "```json {'a':[1]} ```")) /\
             JSON_parse c = Ok (JObject [(lit "a", JArray [JNumber (lit "1")])])) /\
  (accepted (JArray [JNumber (lit "1")]) = None /\
   extract_loop [lit "[1]"; qlit "{'a':[1]}"] = extract_loop [qlit "{'a':[1]}"]).
Proof.
  split.
  - apply (proj1 (proj2 (extractJson_accepts_only_objects (qlit "```json {'a':[1]} ```")))).
    vm_compute. reflexivity.
  - apply (proj2 (proj2 (extractJson_accepts_only_objects []))).
    + vm_compute. reflexivity.
    + intros o. discriminate.
Defined.

(** The reply of the first end-to-end scenario: a fenced object on its
    own line. *)
Example extractJson_fenced_reply :
  extractJson (lit "```json" ++ [10%N]
               ++ qlit "{'description':'A red mug','valueRange':'$5-$10'}"
               ++ [10%N] ++ lit "```")
  = Ok (Some [(lit "description", JString (lit "A red mug"));
              (lit "valueRange", JString (lit "$5-$10"))]).
Proof. vm_compute. reflexivity. Qed.

(** An array at top level is passed over, and the object inside it is then
    found by the brace strategies. *)
Example extractJson_array_reply :
  extractJson (qlit "[{'a':1}]") = Ok (Some [(lit "a", JNumber (lit "1"))]).
Proof. vm_compute. reflexivity. Qed.

(** Without a brace pair no candidate can parse to an object. *)
Lemma extractJson_no_pair (T : text) :
  ~ has_brace_pair T -> extractJson T = Ok None.
Proof.
  intros Hn. apply extract_loop_none. intros c o Hin Hp. apply Hn.
  apply attempts_substring in Hin as (pre & post & ->).
  apply JSON_parse_object_shape in Hp as (w1 & mid & w2 & -> & _).
  exists (pre ++ w1), mid, (w2 ++ post).
  rewrite <- !app_assoc. simpl. rewrite <- !app_assoc. reflexivity.
Qed.

(** Deciding the absence of a pair on a concrete text. *)
Lemma no_pair_by_search (T : text) : match_braces T = None -> ~ has_brace_pair T.
Proof.
  intros H (a & b & c & ->).
  assert (G : forall a, match_braces (a ++ LBRACE :: b ++ RBRACE :: c) <> None).
  { clear. intros a. induction a as [|x a IH]; simpl.
    - assert (U : upto_last RBRACE (b ++ RBRACE :: c) <> None).
      { induction b as [|y b IHb]; simpl.
        - destruct (upto_last RBRACE c); discriminate.
        - destruct (upto_last RBRACE (b ++ RBRACE :: c)); [discriminate|contradiction]. }
      destruct (upto_last RBRACE (b ++ RBRACE :: c)); [discriminate|contradiction].
    - destruct (x =? LBRACE)%N; [|exact IH].
      destruct (upto_last RBRACE _); [discriminate|exact IH]. }
  now apply (G a).
Qed.

End Extraction.

(* ------------------------------------------------------------------ *)
(** * Properties of the two chains                                       *)
(* ------------------------------------------------------------------ *)

Section Chains.

Lemma deletions_app (a b : list event) : deletions (a ++ b) = deletions a ++ deletions b.
Proof.
  induction a as [|ev a IH]; simpl; [reflexivity|].
  destruct ev; simpl; now rewrite IH.
Qed.

(** The vision chain: its events and its outcome. *)
Lemma fetchClaudeAnalysis_run (w : World) (image mediaType : text) :
  fetchClaudeAnalysis w image mediaType =
  match messages_create w image mediaType with
  | Err e => ([MessagesCreate image mediaType], Err e)
  | Ok content =>
      ([MessagesCreate image mediaType;
        ConsoleLog (lit "[Claude raw response]") (rawTextOf content)],
       match extractJson (rawTextOf content) with
       | Ok (Some o) => Ok o
       | Ok None => Err (ErrorObject (EXTRACT_PREFIX ++ rawTextOf content))
       | Err e => Err e
       end)
  end.
Proof.
  unfold fetchClaudeAnalysis, bind, call, emit, throw, ret.
  destruct (messages_create w image mediaType) as [content|e]; [|reflexivity].
  destruct (extractJson (rawTextOf content)) as [[o|]|e]; reflexivity.
Qed.

Lemma fetchClaudeAnalysis_no_enrichment (w : World) (image mediaType : text) :
  Forall (fun ev => is_enrichment_call ev = false) (fst (fetchClaudeAnalysis w image mediaType))
  /\ deletions (fst (fetchClaudeAnalysis w image mediaType)) = [].
Proof.
  rewrite fetchClaudeAnalysis_run.
  destruct (messages_create w image mediaType); simpl; split;
    repeat constructor.
Qed.

(** The search client makes exactly one call. *)
Lemma fetchLensResults_events (w : World) (url key : text) :
  fst (fetchLensResults w url key) = [LensFetch url key].
Proof.
  unfold fetchLensResults, bind, call, throw.
  destruct (lens_fetch w url key) as [res|e]; [|reflexivity].
  destruct (negb (ok res)); [reflexivity|].
  destruct (json_body res) as [data|e]; [|reflexivity].
  destruct (lensResultsOf data); reflexivity.
Qed.

(** A rejected [fetch] (network failure, timeout) rejects the search. *)
Lemma fetchLensResults_rejected (w : World) (url key : text) (e : thrown) :
  lens_fetch w url key = Err e -> snd (fetchLensResults w url key) = Err e.
Proof. intros H. unfold fetchLensResults, bind, call. now rewrite H. Qed.

(** A status outside 200..299 rejects the search. *)
Lemma fetchLensResults_status (w : World) (url key : text) (res : Response) :
  lens_fetch w url key = Ok res -> ok res = false ->
  snd (fetchLensResults w url key)
  = Err (ErrorObject (lit "SerpApi responded with " ++ decimal (status res))).
Proof. intros H Hok. unfold fetchLensResults, bind, call, throw. now rewrite H, Hok. Qed.

Lemma fetchLensResults_ok (w : World) (url key : text) (res : Response) (data : json) :
  lens_fetch w url key = Ok res -> ok res = true -> json_body res = Ok data ->
  snd (fetchLensResults w url key) = lensResultsOf data.
Proof.
  intros H Hok Hd. unfold fetchLensResults, bind, call, throw.
  rewrite H, Hok, Hd. simpl. now destruct (lensResultsOf data).
Qed.

(** The optional chain when it is not started. *)
Lemma webResultsPromise_disabled (w : World) (image mediaType : text) :
  truthy_env (SERPAPI_KEY w) = None \/ truthy_env (BLOB_READ_WRITE_TOKEN w) = None ->
  webResultsPromise w image mediaType = ([], Ok []).
Proof.
  unfold webResultsPromise. intros [H|H]; rewrite H; [reflexivity|].
  now destruct (truthy_env (SERPAPI_KEY w)).
Qed.

(** The optional chain when the upload rejects. *)
Lemma webResultsPromise_upload_rejected
      (w : World) (image mediaType key b : text) (e : thrown) :
  truthy_env (SERPAPI_KEY w) = Some key ->
  truthy_env (BLOB_READ_WRITE_TOKEN w) = Some b ->
  blob_put w image mediaType = Err e ->
  webResultsPromise w image mediaType
  = ([BlobPut image mediaType;
      ConsoleWarn (lit "SerpApi/Blob flow failed (non-fatal):") (message_of e)],
     Ok []).
Proof.
  intros Hs Hb Hp. unfold webResultsPromise. rewrite Hs, Hb.
  unfold uploadImage, catch, bind, call, emit, ret. now rewrite Hp.
Qed.

(** The optional chain when the upload resolves: one upload, one search,
    one deletion of the uploaded URL, whatever the search and the deletion
    do; the result is the search result, or the empty list. *)
Lemma webResultsPromise_uploaded
      (w : World) (image mediaType key b url : text) :
  truthy_env (SERPAPI_KEY w) = Some key ->
  truthy_env (BLOB_READ_WRITE_TOKEN w) = Some b ->
  blob_put w image mediaType = Ok url ->
  webResultsPromise w image mediaType
  = ([BlobPut image mediaType; LensFetch url key; BlobDel url]
     ++ match blob_del w url with
        | Ok _ => []
        | Err e => [ConsoleWarn (lit "Blob cleanup failed (non-fatal):") (message_of e)]
        end
     ++ match snd (fetchLensResults w url key) with
        | Ok _ => []
        | Err e => [ConsoleWarn (lit "SerpApi/Blob flow failed (non-fatal):") (message_of e)]
        end,
     Ok match snd (fetchLensResults w url key) with
        | Ok l => l
        | Err _ => []
        end).
Proof.
  intros Hs Hb Hp. unfold webResultsPromise. rewrite Hs, Hb.
  unfold uploadImage, deleteBlob, catch, finally, bind, call, emit, ret. rewrite Hp.
  pose proof (fetchLensResults_events w url key) as Ev.
  destruct (fetchLensResults w url key) as [t r]. simpl in Ev. subst t. simpl.
  destruct (blob_del w url) as [[]|e]; destruct r as [l|e']; reflexivity.
Qed.

(** The optional chain always resolves. *)
Lemma webResultsPromise_resolves (w : World) (image mediaType : text) :
  exists l, snd (webResultsPromise w image mediaType) = Ok l.
Proof.
  destruct (truthy_env (SERPAPI_KEY w)) as [key|] eqn:Hs.
  2:{ rewrite webResultsPromise_disabled by auto. simpl. eauto. }
  destruct (truthy_env (BLOB_READ_WRITE_TOKEN w)) as [b|] eqn:Hb.
  2:{ rewrite webResultsPromise_disabled by auto. simpl. eauto. }
  destruct (blob_put w image mediaType) as [url|e] eqn:Hp.
  - rewrite (webResultsPromise_uploaded _ _ _ _ _ _ Hs Hb Hp). simpl. eauto.
  - rewrite (webResultsPromise_upload_rejected _ _ _ _ _ _ Hs Hb Hp). simpl. eauto.
Qed.

(** A request that passes the checks reaches the scan. *)
Lemma POST_valid (w : World) (image mediaType : text) :
  valid_request w image mediaType -> POST w = runScan w image mediaType.
Proof.
  intros ((k & Hk) & props & Hr & Hi & Hne & ->).
  unfold POST. rewrite Hk, Hr. cbn [get_prop]. rewrite Hi.
  destruct image as [|c r]; [contradiction|].
  unfold js_of. now destruct (obj_get props (lit "mediaType")).
Qed.

Lemma scanError_events (err : thrown) :
  fst (scanError err) = [ConsoleError (lit "Scan error:") (caught_message err)].
Proof. reflexivity. Qed.

(** What the join does with the outcomes of the two chains. *)
Lemma runScan_response (w : World) (image mediaType : text) :
  snd (runScan w image mediaType) =
  match snd (fetchClaudeAnalysis w image mediaType),
        snd (webResultsPromise w image mediaType) with
  | Ok claudeResult, Ok webResults => Responded 200 (success_body claudeResult webResults)
  | Err err, _ => snd (scanError err)
  | Ok _, Err err => snd (scanError err)
  end.
Proof.
  unfold runScan.
  destruct (fetchClaudeAnalysis w image mediaType) as [tA [c|e]];
    destruct (webResultsPromise w image mediaType) as [tB [l|e']]; simpl; try reflexivity;
    match goal with |- context [scanError ?x] => destruct (scanError x); reflexivity end.
Qed.

Lemma runScan_events (w : World) (image mediaType : text) :
  exists tC,
    fst (runScan w image mediaType)
    = fst (fetchClaudeAnalysis w image mediaType)
      ++ fst (webResultsPromise w image mediaType) ++ tC
    /\ Forall (fun ev => is_enrichment_call ev = false) tC /\ deletions tC = [].
Proof.
  unfold runScan.
  destruct (fetchClaudeAnalysis w image mediaType) as [tA [c|e]];
    destruct (webResultsPromise w image mediaType) as [tB [l|e']]; simpl.
  - exists []. rewrite app_nil_r. repeat split; constructor.
  - eexists. repeat split; repeat constructor.
  - eexists. repeat split; repeat constructor.
  - eexists. repeat split; repeat constructor.
Qed.

End Chains.

(* ------------------------------------------------------------------ *)
(** * Properties of the handler                                          *)
(* ------------------------------------------------------------------ *)

Section Handler.

Lemma extract_prefix_dispatch (rawText : text) :
  match_prefix (lit "Could not extract JSON") (EXTRACT_PREFIX ++ rawText)
  = Some (lit " from Claude response: " ++ rawText).
Proof.
  change EXTRACT_PREFIX
    with (lit "Could not extract JSON" ++ lit " from Claude response: ").
  rewrite <- app_assoc. apply match_prefix_app.
Qed.

(** C8: when the reply of the model holds no opening brace followed by a
    closing brace, extractJson returns null and fetchClaudeAnalysis throws
    an error whose message ends with the whole reply. *)
Theorem extraction_fails_without_braces
        (w : World) (image mediaType : text) (content : list ContentBlock) :
  messages_create w image mediaType = Ok content ->
  ~ has_brace_pair (rawTextOf content) ->
  extractJson (rawTextOf content) = Ok None /\
  snd (fetchClaudeAnalysis w image mediaType)
  = Err (ErrorObject (lit "Could not extract JSON from Claude response: "
                      ++ rawTextOf content)).
Proof.
  intros Hc Hn. apply extractJson_no_pair in Hn. split; [exact Hn|].
  rewrite fetchClaudeAnalysis_run, Hc. simpl. now rewrite Hn.
Qed.

Lemma extraction_fails_without_braces_witness :
  extractJson (lit "I cannot identify this item.") = Ok None /\
  snd (fetchClaudeAnalysis world_prose (lit "aGVsbG8=") (lit "image/jpeg"))
  = Err (ErrorObject (lit "Could not extract JSON from Claude response: I cannot identify this item.")).
Proof.
  apply (extraction_fails_without_braces world_prose (lit "aGVsbG8=") (lit "image/jpeg")
           [TextBlock (lit "I cannot identify this item.")]).
  - reflexivity.
  - apply no_pair_by_search. reflexivity.
Defined.



(** A vision failure whose message happens to begin like the extraction
    error is answered as an extraction failure: the dispatch reads only the
    text. *)
Lemma POST_prefix_dispatch (w : World) (image mediaType : text) (err : thrown) (rest : text) :
  valid_request w image mediaType ->
  messages_create w image mediaType = Err err ->
  match_prefix (lit "Could not extract JSON") (caught_message err) = Some rest ->
  response w = Responded 502
    [(lit "error", FJson (JString (lit "Claude returned an unexpected response format.")));
     (lit "raw", FJson (JString (caught_message err)))].
Proof.
  intros Hv Hc Hp.
  unfold response. rewrite (POST_valid _ _ _ Hv), runScan_response.
  rewrite fetchClaudeAnalysis_run, Hc. cbn [snd].
  unfold scanError. cbn [snd]. fold (caught_message err). now rewrite Hp.
Qed.

(** C9: an image that is the empty string is refused like a missing one:
    status 400, the one member error with the message of the missing image,
    and no external call. *)
Theorem POST_empty_image_rejected (w : World) (k : text) (props : list (text * json)) :
  truthy_env (ANTHROPIC_API_KEY w) = Some k ->
  req_json w = Ok (JObject props) ->
  obj_get props (lit "image") = Some (JString []) ->
  POST w = ([], Responded 400
                  [(lit "error", FJson (JString (lit "Missing base64 image in request body.")))]).
Proof.
  intros Hk Hr Hi. unfold POST. rewrite Hk, Hr. cbn [get_prop]. rewrite Hi.
  now destruct (obj_get props (lit "mediaType")).
Qed.

Lemma POST_empty_image_rejected_witness :
  POST world_empty_image
  = ([], Responded 400
           [(lit "error", FJson (JString (lit "Missing base64 image in request body.")))]).
Proof.
  apply (POST_empty_image_rejected world_empty_image (lit "sk-1")
           [(lit "image", JString []); (lit "mediaType", JString (lit "image/png"))]);
    vm_compute; reflexivity.
Defined.

Lemma obj_get_set_same {V : Type} (o : list (text * V)) (k : text) (v : V) :
  obj_get (obj_set o k v) k = Some v.
Proof.
  induction o as [|[k' v'] o IH]; simpl.
  - now rewrite text_eqb_refl.
  - destruct (text_eqb k' k) eqn:E; simpl; rewrite E; [reflexivity|exact IH].
Qed.

Lemma obj_get_set_other {V : Type} (o : list (text * V)) (k k2 : text) (v : V) :
  k2 <> k -> obj_get (obj_set o k v) k2 = obj_get o k2.
Proof.
  intros Hne. induction o as [|[k' v'] o IH]; simpl.
  - rewrite text_eqb_neq; [reflexivity|]. congruence.
  - destruct (text_eqb k' k) eqn:E; simpl.
    + apply text_eqb_eq in E. subst k'. rewrite text_eqb_neq; [|congruence].
      reflexivity.
    + destruct (text_eqb k' k2); [reflexivity|exact IH].
Qed.

Lemma obj_get_spread (o : list (text * json)) (k : text) :
  obj_get (spread o) k = option_map FJson (obj_get o k).
Proof.
  induction o as [|[k' v'] o IH]; simpl; [reflexivity|].
  destruct (text_eqb k' k); [reflexivity|exact IH].
Qed.

Lemma success_body_webResults (o : list (text * json)) (web : list WebResult) :
  obj_get (success_body o web) (lit "webResults") = Some (FWebResults web).
Proof. apply obj_get_set_same. Qed.

(** C3: a failure of the optional chain (upload or search) never fails the
    scan: the chain resolves to the empty list, and when the vision chain
    yields an analysis the answer is 200 with that analysis and an empty
    webResults.  The chain never rejects in any case. *)
Theorem enrichment_failure_absorbed
        (w : World) (image mediaType key b : text) :
  valid_request w image mediaType ->
  truthy_env (SERPAPI_KEY w) = Some key ->
  truthy_env (BLOB_READ_WRITE_TOKEN w) = Some b ->
  enrichment_fails w image mediaType key ->
  (forall i m, exists l, snd (webResultsPromise w i m) = Ok l) /\
  snd (webResultsPromise w image mediaType) = Ok [] /\
  (forall o, snd (fetchClaudeAnalysis w image mediaType) = Ok o ->
     response w = Responded 200 (success_body o []) /\
     obj_get (success_body o []) (lit "webResults") = Some (FWebResults [])).
Proof.
  intros Hv Hs Hb Hf.
  assert (Hw : snd (webResultsPromise w image mediaType) = Ok []).
  { destruct Hf as [(e & Hp)|(url & e & Hp & Hl)].
    - now rewrite (webResultsPromise_upload_rejected _ _ _ _ _ _ Hs Hb Hp).
    - rewrite (webResultsPromise_uploaded _ _ _ _ _ _ Hs Hb Hp). cbn [snd].
      now rewrite Hl. }
  split; [|split].
  - intros i m. apply webResultsPromise_resolves.
  - exact Hw.
  - intros o Ho. split; [|apply success_body_webResults].
    unfold response. rewrite (POST_valid _ _ _ Hv), runScan_response.
    now rewrite Ho, Hw.
Qed.

Lemma enrichment_failure_absorbed_witness :
  snd (webResultsPromise world_search_500 (lit "aGVsbG8=") (lit "image/png")) = Ok [] /\
  response world_search_500
  = Responded 200
      [(lit "description", FJson (JString (lit "A red mug")));
       (lit "webResults", FWebResults [])].
Proof.
  pose proof (enrichment_failure_absorbed world_search_500
                (lit "aGVsbG8=") (lit "image/png") (lit "serp-1") (lit "blob-1")) as H.
  destruct H as (_ & Hw & Hr).
  - prove_valid.
  - reflexivity.
  - reflexivity.
  - right. exists (lit "https://blob.example/temp-scans/1.png").
    eexists. split; [reflexivity|]. vm_compute. reflexivity.
  - split; [exact Hw|].
    apply (Hr [(lit "description", JString (lit "A red mug"));
               (lit "webResults", JString (lit "none"))]).
    vm_compute. reflexivity.
Defined.

(** C4: after a successful upload exactly one deletion is requested, for
    the uploaded URL, whether the search resolves or rejects; and whatever
    the deletion itself does, the answer of the scan is the same. *)
Theorem uploaded_blob_deleted_once
        (w : World) (image mediaType key b url : text) :
  valid_request w image mediaType ->
  truthy_env (SERPAPI_KEY w) = Some key ->
  truthy_env (BLOB_READ_WRITE_TOKEN w) = Some b ->
  blob_put w image mediaType = Ok url ->
  deletions (trace w) = [url] /\
  forall d, response (with_blob_del w d) = response w /\
            deletions (trace (with_blob_del w d)) = [url].
Proof.
  intros Hv Hs Hb Hp.
  assert (Hd : forall w', valid_request w' image mediaType ->
                 truthy_env (SERPAPI_KEY w') = Some key ->
                 truthy_env (BLOB_READ_WRITE_TOKEN w') = Some b ->
                 blob_put w' image mediaType = Ok url ->
                 deletions (trace w') = [url]).
  { intros w' Hv' Hs' Hb' Hp'. unfold trace. rewrite (POST_valid _ _ _ Hv').
    destruct (runScan_events w' image mediaType) as (tC & -> & _ & HC).
    rewrite !deletions_app, HC, app_nil_r.
    rewrite (proj2 (fetchClaudeAnalysis_no_enrichment w' image mediaType)).
    rewrite (webResultsPromise_uploaded _ _ _ _ _ _ Hs' Hb' Hp'). cbn [fst].
    rewrite !deletions_app. simpl.
    destruct (blob_del w' url); destruct (snd (fetchLensResults w' url key)); reflexivity. }
  split; [now apply Hd|].
  intros d.
  assert (Hv' : valid_request (with_blob_del w d) image mediaType) by exact Hv.
  split; [|now apply Hd].
  unfold response. rewrite (POST_valid _ _ _ Hv), (POST_valid _ _ _ Hv'), !runScan_response.
  rewrite (webResultsPromise_uploaded _ _ _ _ _ _ Hs Hb Hp).
  rewrite (webResultsPromise_uploaded (with_blob_del w d) _ _ _ _ _ Hs Hb Hp).
  reflexivity.
Qed.

Lemma uploaded_blob_deleted_once_witness :
  deletions (trace world_search_500) = [lit "https://blob.example/temp-scans/1.png"] /\
  forall d, response (with_blob_del world_search_500 d) = response world_search_500 /\
            deletions (trace (with_blob_del world_search_500 d))
            = [lit "https://blob.example/temp-scans/1.png"].
Proof.
  apply (uploaded_blob_deleted_once world_search_500
           (lit "aGVsbG8=") (lit "image/png") (lit "serp-1") (lit "blob-1")).
  - prove_valid.
  - reflexivity.
  - reflexivity.
  - reflexivity.
Defined.

Lemma scanError_code (err : thrown) : exists body, snd (scanError err) = Responded 502 body.
Proof.
  unfold scanError. cbn [snd].
  destruct (match_prefix _ _); eauto.
Qed.

(** Either the handler answers before any external call, with a status
    other than 200, or the request was valid and the scan ran. *)
Lemma POST_cases (w : World) :
  (trace w = [] /\ forall body, response w <> Responded 200 body) \/
  exists image mediaType, valid_request w image mediaType.
Proof.
  unfold trace, response, POST, valid_request.
  destruct (truthy_env (ANTHROPIC_API_KEY w)) as [k|] eqn:Hk.
  2:{ left. split; [reflexivity|]. intros body; discriminate. }
  destruct (req_json w) as [body|e] eqn:Hr.
  2:{ left. split; [reflexivity|]. intros body; discriminate. }
  destruct body; cbn [get_prop];
    try (left; split; [reflexivity|]; intros body'; discriminate).
  destruct (obj_get props (lit "image")) as [v|] eqn:Hi.
  2:{ left. destruct (obj_get props (lit "mediaType"));
        (split; [reflexivity|]; intros body'; discriminate). }
  destruct v as [| | |img| |];
    try (left; destruct (obj_get props (lit "mediaType"));
         (split; [reflexivity|]; intros body'; discriminate)).
  destruct img as [|c r].
  { left. destruct (obj_get props (lit "mediaType"));
      (split; [reflexivity|]; intros body'; discriminate). }
  right. exists (c :: r), (resolveMediaType (js_of (obj_get props (lit "mediaType")))).
  split; [eauto|]. exists props. repeat split; auto. discriminate.
Qed.

(** C5: when either optional credential is missing, the optional chain
    resolves at once to the empty list without any call, the handler makes
    no call to the storage or the search provider, and a 200 answer carries
    an empty webResults. *)
Theorem no_enrichment_without_credentials (w : World) :
  truthy_env (SERPAPI_KEY w) = None \/ truthy_env (BLOB_READ_WRITE_TOKEN w) = None ->
  (forall image mediaType, webResultsPromise w image mediaType = ([], Ok [])) /\
  Forall (fun ev => is_enrichment_call ev = false) (trace w) /\
  (forall body, response w = Responded 200 body ->
     obj_get body (lit "webResults") = Some (FWebResults [])).
Proof.
  intros Hk.
  assert (Hw : forall image mediaType, webResultsPromise w image mediaType = ([], Ok [])).
  { intros. now apply webResultsPromise_disabled. }
  split; [exact Hw|].
  destruct (POST_cases w) as [[Ht Hn]|(image & mediaType & Hv)].
  - split; [rewrite Ht; constructor|]. intros body Hb. now apply Hn in Hb.
  - split.
    + unfold trace. rewrite (POST_valid _ _ _ Hv).
      destruct (runScan_events w image mediaType) as (tC & -> & HC & _).
      rewrite Hw. cbn [fst app].
      apply Forall_app. split; [|exact HC].
      apply fetchClaudeAnalysis_no_enrichment.
    + intros body. unfold response. rewrite (POST_valid _ _ _ Hv), runScan_response, Hw.
      cbn [snd].
      destruct (snd (fetchClaudeAnalysis w image mediaType)) as [o|err].
      * intros H; injection H as <-. apply success_body_webResults.
      * destruct (scanError_code err) as (b' & ->). discriminate.
Qed.

Lemma no_enrichment_without_credentials_witness :
  webResultsPromise world_no_enrichment (lit "aGVsbG8=") (lit "image/png") = ([], Ok []) /\
  Forall (fun ev => is_enrichment_call ev = false) (trace world_no_enrichment) /\
  obj_get [(lit "description", FJson (JString (lit "A red mug")));
           (lit "webResults", FWebResults [])] (lit "webResults")
  = Some (FWebResults []).
Proof.
  destruct (no_enrichment_without_credentials world_no_enrichment) as (Hw & Ht & Hb).
  - right. reflexivity.
  - split; [apply Hw|]. split; [exact Ht|]. apply Hb. vm_compute. reflexivity.
Defined.

(** C10: in a 200 answer, webResults is the result of the optional chain,
    also when the extracted object has a property of that name; every
    other property of the extracted object is forwarded unchanged and
    nothing else is added. *)
Theorem webResults_from_enrichment (w : World) (body : list (text * field)) :
  response w = Responded 200 body ->
  exists image mediaType o web,
    valid_request w image mediaType /\
    snd (fetchClaudeAnalysis w image mediaType) = Ok o /\
    snd (webResultsPromise w image mediaType) = Ok web /\
    obj_get body (lit "webResults") = Some (FWebResults web) /\
    forall k, k <> lit "webResults" -> obj_get body k = option_map FJson (obj_get o k).
Proof.
  intros H.
  destruct (POST_cases w) as [[_ Hn]|(image & mediaType & Hv)]; [now apply Hn in H|].
  unfold response in H. rewrite (POST_valid _ _ _ Hv), runScan_response in H.
  destruct (snd (fetchClaudeAnalysis w image mediaType)) as [o|err] eqn:Ho.
  2:{ destruct (scanError_code err) as (b' & E). rewrite E in H. discriminate. }
  destruct (snd (webResultsPromise w image mediaType)) as [web|err] eqn:Hw.
  2:{ destruct (scanError_code err) as (b' & E). rewrite E in H. discriminate. }
  injection H as <-.
  exists image, mediaType, o, web.
  split; [exact Hv|]. split; [exact Ho|]. split; [exact Hw|]. split.
  - apply success_body_webResults.
  - intros k Hk. unfold success_body. rewrite obj_get_set_other by exact Hk.
    apply obj_get_spread.
Qed.

Lemma webResults_from_enrichment_witness :
  exists image mediaType o web,
    valid_request world_search_ok image mediaType /\
    snd (fetchClaudeAnalysis world_search_ok image mediaType) = Ok o /\
    snd (webResultsPromise world_search_ok image mediaType) = Ok web /\
    obj_get [(lit "description", FJson (JString (lit "A red mug")));
             (lit "webResults",
              FWebResults
                [spec_WebMatch [(lit "title", JString (lit "Mug"));
                                (lit "price", JObject [(lit "value", JString (lit "$5"))])];
                 spec_WebMatch [(lit "link", JString (lit "https://x"))]])]
            (lit "webResults") = Some (FWebResults web) /\
    forall k, k <> lit "webResults" ->
      obj_get [(lit "description", FJson (JString (lit "A red mug")));
               (lit "webResults",
                FWebResults
                  [spec_WebMatch [(lit "title", JString (lit "Mug"));
                                  (lit "price", JObject [(lit "value", JString (lit "$5"))])];
                   spec_WebMatch [(lit "link", JString (lit "https://x"))]])] k
      = option_map FJson (obj_get o k).
Proof.
  apply (webResults_from_enrichment world_search_ok). vm_compute. reflexivity.
Defined.

End Handler.

(* ------------------------------------------------------------------ *)
(** * Properties of the search client                                    *)
(* ------------------------------------------------------------------ *)

Section Search.

Lemma coalesce_default (v : option json) (d : json) :
  coalesce (js_of v) (JVal d) = default_of v d.
Proof. destruct v as [[]|]; reflexivity. Qed.

Lemma price_chain (v : option json) :
  coalesce (opt_chain (js_of v) (lit "value")) (JVal JNull) = price_of v.
Proof.
  destruct v as [[| | | | |pp]|]; try reflexivity.
  cbn [js_of opt_chain get_prop price_of]. apply coalesce_default.
Qed.

Lemma toWebResult_object (m : list (text * json)) :
  toWebResult (JObject m) = Ok (spec_WebMatch m).
Proof.
  unfold toWebResult, spec_WebMatch. cbn [get_prop].
  fold (js_of (obj_get m (lit "title"))). fold (js_of (obj_get m (lit "price"))).
  fold (js_of (obj_get m (lit "link"))). fold (js_of (obj_get m (lit "source"))).
  fold (js_of (obj_get m (lit "thumbnail"))).
  now rewrite !coalesce_default, price_chain.
Qed.

Lemma map_results_objects (ps : list (list (text * json))) :
  map_results (map JObject ps) = Ok (map spec_WebMatch ps).
Proof.
  induction ps as [|m ps IH]; [reflexivity|].
  cbn [map map_results]. now rewrite toWebResult_object, IH.
Qed.

Lemma get_prop_matches (data : json) :
  data <> JNull -> get_prop data (lit "visual_matches") = Ok (js_of (matches_of data)).
Proof. destruct data; intros H; try reflexivity. now destruct H. Qed.

Lemma toWebResult_plain (m : json) :
  plain_match m = true -> toWebResult m = Ok (spec_WebMatch (members_of m)).
Proof.
  destruct m; try discriminate; intros _; try reflexivity.
  apply toWebResult_object.
Qed.

Lemma map_results_plain (ms : list json) :
  forallb plain_match ms = true ->
  map_results ms = Ok (map (fun m => spec_WebMatch (members_of m)) ms).
Proof.
  induction ms as [|m ms IH]; [reflexivity|].
  cbn [forallb]. intros H. apply andb_prop in H as [Hm Hr].
  cbn [map map_results]. now rewrite (toWebResult_plain _ Hm), (IH Hr).
Qed.

(** C6, the claim as written fails: not every response of the search
    provider is turned into its first five matches.  A response with six
    matches, the third of them null, produces no list at all (the mapping
    throws a TypeError); and a match that is a text gets the [link] method
    of texts as its link, not the empty text. *)
Lemma fetchLensResults_null_or_text_match_counterexample :
  (lens_fetch world_null_in_six (lit "u") (lit "k")
   = Ok {| status := 200;
           json_body :=
             Ok (JObject
                   [(lit "visual_matches",
                     JArray [JObject [(lit "title", JString (lit "a"))];
                             JObject [(lit "title", JString (lit "b"))];
                             JNull;
                             JObject [(lit "title", JString (lit "d"))];
                             JObject [(lit "title", JString (lit "e"))];
                             JObject [(lit "title", JString (lit "f"))]])]) |}
   /\ snd (fetchLensResults world_null_in_six (lit "u") (lit "k")) = Err typeError)
  /\
  (lens_fetch world_string_match (lit "u") (lit "k")
   = Ok {| status := 200;
           json_body :=
             Ok (JObject [(lit "visual_matches", JArray [JString (lit "abc")])]) |}
   /\ snd (fetchLensResults world_string_match (lit "u") (lit "k"))
      = Ok [{| title := JVal (JString (lit "Unknown"));
               price := JVal JNull;
               link := JFunction;
               source := JVal (JString []);
               thumbnail := JVal JNull |}]).
Proof. vm_compute. repeat split. Qed.

(** C6, amended: from a successful response whose body is not null, the
    search client produces the empty list when the body has no list of
    matches (or a null one); and when the matches are an array whose first
    five entries are neither null nor texts, it produces the first five
    matches at most (exactly five out of five or more), in the order of the
    provider, each with the defaults of the specification. *)
Theorem fetchLensResults_first_five
        (w : World) (url key : text) (res : Response) (data : json) :
  lens_fetch w url key = Ok res ->
  ok res = true ->
  json_body res = Ok data ->
  data <> JNull ->
  (matches_of data = None \/ matches_of data = Some JNull ->
     snd (fetchLensResults w url key) = Ok []) /\
  (forall ms, matches_of data = Some (JArray ms) ->
     forallb plain_match (firstn 5 ms) = true ->
     snd (fetchLensResults w url key)
     = Ok (map (fun m => spec_WebMatch (members_of m)) (firstn 5 ms)) /\
     length (map (fun m => spec_WebMatch (members_of m)) (firstn 5 ms))
     = Nat.min 5 (length ms) /\
     (5 <= length ms ->
      length (map (fun m => spec_WebMatch (members_of m)) (firstn 5 ms)) = 5)) /\
  (forall m,
     (obj_get m (lit "title") = None ->
        title (spec_WebMatch m) = JVal (JString (lit "Unknown"))) /\
     (obj_get m (lit "price") = None -> price (spec_WebMatch m) = JVal JNull) /\
     (obj_get m (lit "link") = None -> link (spec_WebMatch m) = JVal (JString [])) /\
     (obj_get m (lit "source") = None -> source (spec_WebMatch m) = JVal (JString [])) /\
     (obj_get m (lit "thumbnail") = None -> thumbnail (spec_WebMatch m) = JVal JNull)).
Proof.
  intros Hf Hok Hb Hd.
  rewrite (fetchLensResults_ok _ _ _ _ _ Hf Hok Hb).
  unfold lensResultsOf. rewrite (get_prop_matches _ Hd).
  split; [|split].
  - intros [->| ->]; reflexivity.
  - intros ms -> Hp. split; [|split].
    + cbn [js_of coalesce nullish]. now apply map_results_plain.
    + now rewrite length_map, length_firstn.
    + intros H5. rewrite length_map, length_firstn. lia.
  - intros m. unfold spec_WebMatch. cbn [title price link source thumbnail].
    repeat split; intros ->; reflexivity.
Qed.

Lemma fetchLensResults_first_five_witness :
  snd (fetchLensResults world_six_matches (lit "u") (lit "k"))
  = Ok (map (fun m => spec_WebMatch (members_of m))
          (firstn 5 [JObject [(lit "title", JString (lit "a"))];
                     JObject [(lit "price", JObject [(lit "value", JString (lit "$5"))])];
                     JObject [(lit "link", JString (lit "c"))];
                     JObject [(lit "source", JString (lit "d"))];
                     JObject [(lit "thumbnail", JString (lit "e"))];
                     JObject [(lit "title", JString (lit "f"))]]))
  /\ length (map (fun m => spec_WebMatch (members_of m))
          (firstn 5 [JObject [(lit "title", JString (lit "a"))];
                     JObject [(lit "price", JObject [(lit "value", JString (lit "$5"))])];
                     JObject [(lit "link", JString (lit "c"))];
                     JObject [(lit "source", JString (lit "d"))];
                     JObject [(lit "thumbnail", JString (lit "e"))];
                     JObject [(lit "title", JString (lit "f"))]])) = 5.
Proof.
  pose proof (fetchLensResults_first_five world_six_matches (lit "u") (lit "k")
                {| status := 200; json_body := JSON_parse six_matches_body |}
                (JObject
                   [(lit "visual_matches",
                     JArray
                       [JObject [(lit "title", JString (lit "a"))];
                        JObject [(lit "price", JObject [(lit "value", JString (lit "$5"))])];
                        JObject [(lit "link", JString (lit "c"))];
                        JObject [(lit "source", JString (lit "d"))];
                        JObject [(lit "thumbnail", JString (lit "e"))];
                        JObject [(lit "title", JString (lit "f"))]])])
                eq_refl eq_refl) as H.
  destruct H as (_ & H & _).
  - vm_compute. reflexivity.
  - discriminate.
  - destruct (H _ eq_refl eq_refl) as (H1 & _ & H3). split; [exact H1|]. apply H3. simpl. lia.
Defined.

End Search.

(* ------------------------------------------------------------------ *)
(** * Further properties of extractJson                                  *)
(* ------------------------------------------------------------------ *)

Section Strategies.

Lemma indexOf_bounds (c : N) (s : text) :
  (-1 <= indexOf c s < Z.of_nat (length s))%Z.
Proof.
  induction s as [|x s IH]; simpl indexOf; simpl length; [lia|].
  destruct (x =? c)%N; [lia|].
  destruct (Z.ltb_spec (indexOf c s) 0); lia.
Qed.

Lemma lastIndexOf_bounds (c : N) (s : text) :
  (-1 <= lastIndexOf c s < Z.of_nat (length s))%Z.
Proof.
  induction s as [|x s IH]; simpl lastIndexOf; simpl length; [lia|].
  destruct (Z.ltb_spec (lastIndexOf c s) 0); [destruct (x =? c)%N|]; lia.
Qed.

(** Where the first occurrence is. *)
Lemma indexOf_spec (c : N) (s : text) :
  (indexOf c s = (-1)%Z /\ Forall (fun x => x <> c) s) \/
  (exists pre r, s = pre ++ c :: r /\ Forall (fun x => x <> c) pre /\
                 indexOf c s = Z.of_nat (length pre)).
Proof.
  induction s as [|x s IH]; simpl indexOf.
  - left. split; [reflexivity|constructor].
  - destruct (N.eqb_spec x c) as [->|Hx].
    + right. exists [], s. repeat split. constructor.
    + destruct IH as [[E F]|(pre & r & -> & F & E)].
      * left. rewrite E. simpl. split; [reflexivity|now constructor].
      * right. exists (x :: pre), r. rewrite E.
        destruct (Z.ltb_spec (Z.of_nat (length pre)) 0); [lia|].
        repeat split; [now constructor | simpl length; lia].
Qed.

(** Where the last occurrence is. *)
Lemma lastIndexOf_spec (c : N) (s : text) :
  (lastIndexOf c s = (-1)%Z /\ Forall (fun x => x <> c) s) \/
  (exists a post, s = a ++ c :: post /\ Forall (fun x => x <> c) post /\
                  lastIndexOf c s = Z.of_nat (length a)).
Proof.
  induction s as [|x s IH]; simpl lastIndexOf.
  - left. split; [reflexivity|constructor].
  - destruct IH as [[E F]|(a & post & -> & F & E)].
    + rewrite E. simpl. destruct (N.eqb_spec x c) as [->|Hx].
      * right. exists [], s. repeat split. exact F.
      * left. split; [reflexivity|now constructor].
    + right. exists (x :: a), post. rewrite E.
      destruct (Z.ltb_spec (Z.of_nat (length a)) 0); [lia|].
      repeat split; [exact F | simpl length; lia].
Qed.

(** [brace_span] finds a span exactly when the text is some text without
    an opening brace, a brace-to-brace span, and some text without a closing
    brace. *)
Lemma brace_span_some (raw J : text) :
  brace_span raw = Some J ->
  exists pre mid post,
    raw = pre ++ (LBRACE :: mid ++ [RBRACE]) ++ post /\
    J = LBRACE :: mid ++ [RBRACE] /\
    Forall (fun x => x <> LBRACE) pre /\ Forall (fun x => x <> RBRACE) post.
Proof.
  unfold brace_span. intros H.
  destruct (indexOf_spec LBRACE raw) as [[E _]|(pre & r & E1 & Fp & Ei)].
  { rewrite E in H. discriminate. }
  destruct (lastIndexOf_spec RBRACE raw) as [[E _]|(a & post & E2 & Fq & El)].
  { rewrite E, Ei in H.
    destruct (negb _); simpl in H; [|discriminate].
    destruct (Z.gtb_spec (-1) (Z.of_nat (length pre))); [lia|discriminate]. }
  rewrite Ei, El in H.
  destruct (Z.eqb_spec (Z.of_nat (length pre)) (-1)); [lia|].
  destruct (Z.gtb_spec (Z.of_nat (length a)) (Z.of_nat (length pre))) as [Hlt|];
    [|discriminate].
  cbn [negb andb] in H.
  assert (Hs : exists mid, a = pre ++ LBRACE :: mid /\ r = mid ++ RBRACE :: post).
  { rewrite E1 in E2. apply app_eq_app in E2 as (l & [[Ea Eb]|[Ea Eb]]).
    - apply (f_equal (@length N)) in Ea. rewrite length_app in Ea. lia.
    - destruct l as [|y l].
      + rewrite app_nil_r in Ea. apply (f_equal (@length N)) in Ea. lia.
      + simpl in Eb. injection Eb as <- ->. eauto. }
  destruct Hs as (mid & -> & ->).
  exists pre, mid, post.
  assert (Eraw : raw = pre ++ (LBRACE :: mid ++ [RBRACE]) ++ post).
  { rewrite E1. simpl. now rewrite <- app_assoc. }
  split; [exact Eraw|]. split; [|now split].
  injection H as <-. rewrite Eraw at 1.
  replace (Z.of_nat (length (pre ++ LBRACE :: mid)) + 1)%Z
    with (Z.of_nat (length pre + length (LBRACE :: mid ++ [RBRACE])))
    by (rewrite length_app; simpl; rewrite length_app; simpl; lia).
  apply slice_middle.
Qed.

Lemma brace_span_of_span (pre mid post : text) :
  Forall (fun x => x <> LBRACE) pre ->
  Forall (fun x => x <> RBRACE) post ->
  brace_span (pre ++ (LBRACE :: mid ++ [RBRACE]) ++ post) = Some (LBRACE :: mid ++ [RBRACE]).
Proof.
  intros Fp Fq.
  pose proof (attempts_of_span pre mid post Fp Fq) as A.
  unfold attempts in A. unfold brace_span.
  rewrite (match_braces_app _ mid _ Fp Fq) in A.
  destruct (negb _ && _); cbn [app] in A.
  - injection A as A. now f_equal.
  - discriminate.
Qed.

Lemma brace_span_none (raw : text) :
  brace_span raw = None -> ~ has_brace_pair raw.
Proof.
  unfold brace_span. intros H (a & b & c & E).
  destruct (indexOf_spec LBRACE raw) as [[_ F]|(pre & r & E1 & Fp & Ei)].
  { rewrite E in F. apply Forall_app in F as [_ F]. inversion F. congruence. }
  destruct (lastIndexOf_spec RBRACE raw) as [[_ F]|(x & post & E2 & Fq & El)].
  { rewrite E in F. apply Forall_app in F as [_ F]. inversion F as [|? ? _ F']; subst.
    apply Forall_app in F' as [_ F']. inversion F'. congruence. }
  rewrite Ei, El in H.
  destruct (Z.eqb_spec (Z.of_nat (length pre)) (-1)); [lia|].
  destruct (Z.gtb_spec (Z.of_nat (length x)) (Z.of_nat (length pre))); [discriminate|].
  (* the first opening brace is at or before [a], the last closing one after it *)
  assert (H1 : length pre <= length a).
  { destruct (Nat.le_gt_cases (length pre) (length a)) as [|Hgt]; [assumption|exfalso].
    rewrite E in E1. apply app_eq_app in E1 as (l & [[Ea Eb]|[Ea Eb]]).
    - pose proof (f_equal (@length N) Ea) as La. rewrite length_app in La. lia.
    - destruct l as [|y l].
      + pose proof (f_equal (@length N) Ea) as La. rewrite length_app in La.
        simpl in La. lia.
      + simpl in Eb. injection Eb as <- _.
        rewrite Ea in Fp. apply Forall_app in Fp as [_ Fp]. inversion Fp. congruence. }
  assert (H2 : length a + 1 + length b <= length x).
  { destruct (Nat.le_gt_cases (length a + 1 + length b) (length x)) as [|Hgt];
      [assumption|exfalso].
    assert (E' : raw = (a ++ LBRACE :: b) ++ RBRACE :: c)
      by (rewrite E, <- app_assoc; reflexivity).
    rewrite E' in E2. apply app_eq_app in E2 as (l & [[Ea Eb]|[Ea Eb]]).
    - destruct l as [|y l].
      + pose proof (f_equal (@length N) Ea) as La. rewrite !length_app in La.
        simpl in La. lia.
      + simpl in Eb. injection Eb as <- Eb.
        rewrite Eb in Fq. apply Forall_app in Fq as [_ Fq]. inversion Fq. congruence.
    - pose proof (f_equal (@length N) Ea) as La. rewrite !length_app in La.
      simpl in La. lia. }
  lia.
Qed.

End Strategies.

Section StrategiesAgree.

Lemma upto_last_shape (c : N) (s p : text) :
  upto_last c s = Some p -> exists q, p = q ++ [c].
Proof.
  revert p; induction s as [|x s IH]; simpl; intros p H; [discriminate|].
  destruct (upto_last c s) as [p'|].
  - injection H as <-. destruct (IH _ eq_refl) as (q & ->). now exists (x :: q).
  - destruct (N.eqb_spec x c) as [->|]; [|discriminate]. injection H as <-. now exists [].
Qed.

Lemma match_braces_pair (s m : text) :
  match_braces s = Some m -> has_brace_pair s.
Proof.
  induction s as [|x s IH]; simpl; [discriminate|].
  assert (Hrec : match_braces s = Some m -> has_brace_pair (x :: s)).
  { intros H. destruct (IH H) as (a & b & c & ->). now exists (x :: a), b, c. }
  destruct (N.eqb_spec x LBRACE) as [->|]; [|exact Hrec].
  destruct (upto_last RBRACE s) as [p|] eqn:E; [|exact Hrec].
  intros _. destruct (upto_last_shape _ _ _ E) as (q & ->).
  apply upto_last_prefix in E as (post & ->).
  exists [], q, post. simpl. now rewrite <- app_assoc.
Qed.

Lemma match_braces_is_span (raw : text) : match_braces raw = brace_span raw.
Proof.
  destruct (brace_span raw) as [J|] eqn:E.
  - apply brace_span_some in E as (pre & mid & post & -> & -> & Fp & Fq).
    now apply match_braces_app.
  - apply brace_span_none in E.
    destruct (match_braces raw) as [m|] eqn:Em; [|reflexivity].
    now apply match_braces_pair in Em.
Qed.

Lemma attempts_span_shape (raw : text) :
  attempts raw = fenceStripped raw ::
                 match brace_span raw with
                 | Some c => [c; c]
                 | None => []
                 end.
Proof.
  unfold attempts. rewrite match_braces_is_span. unfold brace_span.
  destruct (negb _ && _); reflexivity.
Qed.

(** X1: the regular expression of the third strategy finds exactly the
    slice of the second strategy, and finds nothing exactly when the second
    strategy is skipped: the candidate list is the fence-stripped text
    alone, or followed by the same span twice. *)
Theorem regex_candidate_is_slice (raw : text) :
  match_braces raw = brace_span raw /\
  attempts raw = fenceStripped raw ::
                 match brace_span raw with
                 | Some c => [c; c]
                 | None => []
                 end.
Proof.
  split.
  - apply match_braces_is_span.
  - unfold attempts. rewrite match_braces_is_span. unfold brace_span.
    destruct (negb _ && _); reflexivity.
Qed.

Lemma extractJson_span (raw : text) :
  extractJson raw = Ok match brace_span raw with
                       | Some c => object_of c
                       | None => None
                       end.
Proof.
  unfold extractJson. rewrite (attempts_span_shape raw).
  cbn [extract_loop].
  destruct (JSON_parse (fenceStripped raw)) as [v|e] eqn:E.
  - destruct (accepted v) as [o|] eqn:Ea.
    + assert (v = JObject o) by (destruct v; simpl in Ea; congruence). subst v.
      pose proof (fenceStripped_object_span _ _ E) as A.
      rewrite (attempts_span_shape raw) in A.
      destruct (brace_span raw) as [c|]; [|discriminate].
      injection A as A1 A2. subst c. unfold object_of. now rewrite E.
    + destruct (brace_span raw) as [c|]; [|reflexivity].
      cbn [extract_loop]. unfold object_of.
      destruct (JSON_parse c) as [v'|e']; [|reflexivity].
      now destruct (accepted v').
  - destruct (brace_span raw) as [c|]; [|reflexivity].
    cbn [extract_loop]. unfold object_of.
    destruct (JSON_parse c) as [v'|e']; [|reflexivity].
    now destruct (accepted v').
Qed.

(** X2: extractJson is decided by the span from the first opening to the
    last closing brace alone: it returns an object exactly when that span
    exists and parses to this object, and null in every other case.  The
    fence-stripping strategy never changes the result. *)
Theorem extractJson_is_span_parse (raw : text) :
  (forall o, extractJson raw = Ok (Some o) <->
             exists c, brace_span raw = Some c /\ JSON_parse c = Ok (JObject o)) /\
  (extractJson raw = Ok None <->
   forall c o, brace_span raw = Some c -> JSON_parse c <> Ok (JObject o)).
Proof.
  rewrite extractJson_span. split.
  - intros o. split.
    + intros H. injection H as H.
      destruct (brace_span raw) as [c|]; [|discriminate].
      exists c. split; [reflexivity|]. unfold object_of in H.
      destruct (JSON_parse c) as [v|]; [|discriminate].
      destruct v; simpl in H; try discriminate. now injection H as ->.
    + intros (c & E & H). rewrite E. unfold object_of. now rewrite H.
  - split.
    + intros H c o E Hp. rewrite E in H. unfold object_of in H.
      rewrite Hp in H. discriminate.
    + intros H. destruct (brace_span raw) as [c|]; [|reflexivity].
      unfold object_of. destruct (JSON_parse c) as [v|] eqn:Ep; [|reflexivity].
      destruct v; try reflexivity. now destruct (H c props eq_refl).
Qed.

Lemma extractJson_is_span_parse_witness :
  exists c, brace_span (lit "Sure: " ++ qlit "{'a':true}" ++ lit " ok") = Some c /\
            JSON_parse c = Ok (JObject [(lit "a", JBool true)]).
Proof.
  apply (proj1 (proj1 (extractJson_is_span_parse
                         (lit "Sure: " ++ qlit "{'a':true}" ++ lit " ok"))
                      [(lit "a", JBool true)])).
  vm_compute. reflexivity.
Defined.

Lemma pair_in_middle (P T S : text) :
  Forall (fun x => x <> LBRACE) P ->
  Forall (fun x => x <> RBRACE) S ->
  has_brace_pair (P ++ T ++ S) -> has_brace_pair T.
Proof.
  intros FP FS (a & b & c & E).
  assert (E2 : exists l, T ++ S = (l ++ LBRACE :: b) ++ RBRACE :: c).
  { apply app_eq_app in E as (l & [[Ea Eb]|[Ea Eb]]).
    - destruct l as [|y l].
      + exists []. simpl in *. now symmetry.
      + exfalso. simpl in Eb. injection Eb as <- _.
        rewrite Ea in FP. apply Forall_app in FP as [_ FP]. inversion FP. congruence.
    - exists l. rewrite Eb. now rewrite <- app_assoc. }
  destruct E2 as (l & E2).
  apply app_eq_app in E2 as (l2 & [[Ea Eb]|[Ea Eb]]).
  - destruct l2 as [|y l2].
    + exfalso. simpl in Eb. rewrite <- Eb in FS. inversion FS. congruence.
    + simpl in Eb. injection Eb as <- _.
      exists l, b, l2. rewrite Ea. now rewrite <- app_assoc.
  - exfalso. rewrite Eb in FS. apply Forall_app in FS as [_ FS]. inversion FS. congruence.
Qed.

Lemma brace_span_wrapped (P T S : text) :
  Forall (fun x => x <> LBRACE) P ->
  Forall (fun x => x <> RBRACE) S ->
  brace_span (P ++ T ++ S) = brace_span T.
Proof.
  intros FP FS. destruct (brace_span T) as [J|] eqn:E.
  - apply brace_span_some in E as (pre & mid & post & -> & -> & Fp & Fq).
    replace (P ++ (pre ++ (LBRACE :: mid ++ [RBRACE]) ++ post) ++ S)
      with ((P ++ pre) ++ (LBRACE :: mid ++ [RBRACE]) ++ (post ++ S))
      by (now rewrite <- !app_assoc).
    apply brace_span_of_span; apply Forall_app; now split.
  - apply brace_span_none in E.
    destruct (brace_span (P ++ T ++ S)) as [J|] eqn:E'; [|reflexivity].
    exfalso. apply E. apply (pair_in_middle P T S FP FS).
    apply brace_span_some in E' as (pre & mid & post & -> & _).
    exists pre, mid, post. simpl. now rewrite <- app_assoc.
Qed.

(** X3: text without an opening brace in front and text without a closing
    brace behind never change what extractJson returns, be it an object or
    null. *)
Theorem extractJson_ignores_wrapping (P T S : text) :
  Forall (fun x => x <> LBRACE) P ->
  Forall (fun x => x <> RBRACE) S ->
  extractJson (P ++ T ++ S) = extractJson T.
Proof.
  intros FP FS. rewrite !extractJson_span.
  now rewrite brace_span_wrapped.
Qed.

Lemma extractJson_ignores_wrapping_witness :
  extractJson (lit "Result } " ++ qlit "[{'a':1}, 2]" ++ lit " { end")
  = extractJson (qlit "[{'a':1}, 2]").
Proof.
  apply (extractJson_ignores_wrapping (lit "Result } ") (qlit "[{'a':1}, 2]") (lit " { end"));
    repeat constructor; vm_compute; discriminate.
Defined.

(** X4: a result of extractJson is always the parse of the whole span
    from the first opening to the last closing brace of the text: no object
    is ever returned from a smaller part of the reply. *)
Theorem extractJson_result_is_whole_span (raw : text) (o : list (text * json)) :
  extractJson raw = Ok (Some o) ->
  exists pre mid post,
    raw = pre ++ (LBRACE :: mid ++ [RBRACE]) ++ post /\
    Forall (fun x => x <> LBRACE) pre /\
    Forall (fun x => x <> RBRACE) post /\
    JSON_parse (LBRACE :: mid ++ [RBRACE]) = Ok (JObject o).
Proof.
  rewrite extractJson_span. intros H.
  destruct (brace_span raw) as [c|] eqn:E; [|discriminate].
  apply brace_span_some in E as (pre & mid & post & Er & -> & Fp & Fq).
  exists pre, mid, post. repeat split; auto.
  unfold object_of in H.
  destruct (JSON_parse _) as [v|e]; [|discriminate].
  destruct v; simpl in H; try discriminate. now injection H as ->.
Qed.

Lemma extractJson_result_is_whole_span_witness :
  exists pre mid post,
    lit "ok: " ++ qlit "{'a':{'b':2}}" ++ lit " done"
    = pre ++ (LBRACE :: mid ++ [RBRACE]) ++ post /\
    Forall (fun x => x <> LBRACE) pre /\
    Forall (fun x => x <> RBRACE) post /\
    JSON_parse (LBRACE :: mid ++ [RBRACE])
    = Ok (JObject [(lit "a", JObject [(lit "b", JNumber (lit "2"))])]).
Proof.
  apply (extractJson_result_is_whole_span
           (lit "ok: " ++ qlit "{'a':{'b':2}}" ++ lit " done")).
  vm_compute. reflexivity.
Defined.

End StrategiesAgree.

(* ------------------------------------------------------------------ *)
(** * Further properties of the handler and its clients                  *)
(* ------------------------------------------------------------------ *)

Section MediaTypes.

Lemma resolveMediaType_valid (m : js) : In (resolveMediaType m) VALID_MEDIA_TYPES.
Proof.
  unfold resolveMediaType.
  destruct m as [|[| | |t| |]|]; try (left; reflexivity).
  destruct (existsb (text_eqb t) VALID_MEDIA_TYPES) eqn:E; [|left; reflexivity].
  apply existsb_exists in E as (x & Hin & Hx).
  apply text_eqb_eq in Hx. now subst.
Qed.

Lemma resolveMediaType_keeps (t : text) :
  In t VALID_MEDIA_TYPES -> resolveMediaType (JVal (JString t)) = t.
Proof.
  intros H. unfold resolveMediaType.
  replace (existsb (text_eqb t) VALID_MEDIA_TYPES) with true; [reflexivity|].
  symmetry. apply existsb_exists. exists t. split; [exact H|apply text_eqb_refl].
Qed.

Lemma resolveMediaType_default (m : js) :
  (forall t, m = JVal (JString t) -> ~ In t VALID_MEDIA_TYPES) ->
  resolveMediaType m = lit "image/jpeg".
Proof.
  intros H. unfold resolveMediaType.
  destruct m as [|[| | |t| |]|]; try reflexivity.
  destruct (existsb (text_eqb t) VALID_MEDIA_TYPES) eqn:E; [|reflexivity].
  apply existsb_exists in E as (x & Hin & Hx).
  apply text_eqb_eq in Hx. subst. now destruct (H x eq_refl).
Qed.

(** The events of a scan: those of the vision chain, those of the
    optional chain, and the report of the catch block if it runs. *)
Lemma runScan_trace (w : World) (image mediaType : text) :
  fst (runScan w image mediaType)
  = fst (fetchClaudeAnalysis w image mediaType)
    ++ fst (webResultsPromise w image mediaType)
    ++ match snd (fetchClaudeAnalysis w image mediaType),
             snd (webResultsPromise w image mediaType) with
       | Ok _, Ok _ => []
       | Err err, _ => [ConsoleError (lit "Scan error:") (caught_message err)]
       | Ok _, Err err => [ConsoleError (lit "Scan error:") (caught_message err)]
       end.
Proof.
  unfold runScan.
  destruct (fetchClaudeAnalysis w image mediaType) as [tA [c|e]];
    destruct (webResultsPromise w image mediaType) as [tB [l|e']]; simpl;
    try reflexivity.
  now rewrite app_nil_r.
Qed.

(** The events of the optional chain, case by case. *)
Lemma webResultsPromise_trace (w : World) (image mediaType : text) :
  fst (webResultsPromise w image mediaType) = [] \/
  (exists e, fst (webResultsPromise w image mediaType)
             = [BlobPut image mediaType;
                ConsoleWarn (lit "SerpApi/Blob flow failed (non-fatal):") (message_of e)]
             /\ blob_put w image mediaType = Err e) \/
  (exists key url warns,
      truthy_env (SERPAPI_KEY w) = Some key /\
      blob_put w image mediaType = Ok url /\
      fst (webResultsPromise w image mediaType)
      = [BlobPut image mediaType; LensFetch url key; BlobDel url] ++ warns /\
      Forall (fun ev => is_external_call ev = false) warns).
Proof.
  destruct (truthy_env (SERPAPI_KEY w)) as [key|] eqn:Hs.
  2:{ left. rewrite webResultsPromise_disabled by auto. reflexivity. }
  destruct (truthy_env (BLOB_READ_WRITE_TOKEN w)) as [b|] eqn:Hb.
  2:{ left. rewrite webResultsPromise_disabled by auto. reflexivity. }
  destruct (blob_put w image mediaType) as [url|e] eqn:Hp.
  - right. right. rewrite (webResultsPromise_uploaded _ _ _ _ _ _ Hs Hb Hp). cbn [fst].
    exists key, url. eexists. repeat split.
    apply Forall_app. split.
    + destruct (blob_del w url); repeat constructor.
    + destruct (snd (fetchLensResults w url key)); repeat constructor.
  - right. left. exists e.
    rewrite (webResultsPromise_upload_rejected _ _ _ _ _ _ Hs Hb Hp). now split.
Qed.

Lemma runScan_media_types (w : World) (image mediaType : text) (ev : event) (m : text) :
  In ev (fst (runScan w image mediaType)) -> media_type_of ev = Some m -> m = mediaType.
Proof.
  rewrite runScan_trace. intros Hin Hm.
  apply in_app_or in Hin as [Hin|Hin].
  - rewrite fetchClaudeAnalysis_run in Hin.
    destruct (messages_create w image mediaType); simpl in Hin;
      repeat (destruct Hin as [<-|Hin]; [simpl in Hm; congruence|]); contradiction.
  - apply in_app_or in Hin as [Hin|Hin].
    + destruct (webResultsPromise_trace w image mediaType)
        as [E|[(e & E & _)|(key & url & warns & _ & _ & E & F)]]; rewrite E in Hin.
      * contradiction.
      * simpl in Hin.
        repeat (destruct Hin as [<-|Hin]; [simpl in Hm; congruence|]); contradiction.
      * apply in_app_or in Hin as [Hin|Hin].
        -- simpl in Hin.
           repeat (destruct Hin as [<-|Hin]; [simpl in Hm; congruence|]); contradiction.
        -- rewrite Forall_forall in F. apply F in Hin.
           destruct ev; simpl in Hin, Hm; congruence.
    + destruct (snd (fetchClaudeAnalysis w image mediaType));
        [destruct (snd (webResultsPromise w image mediaType))|];
        simpl in Hin; try contradiction;
        destruct Hin as [<-|[]]; discriminate.
Qed.

(** A scan starts with the call to the vision service. *)
Lemma runScan_first_event (w : World) (image mediaType : text) :
  exists rest, fst (runScan w image mediaType) = MessagesCreate image mediaType :: rest.
Proof.
  rewrite runScan_trace, fetchClaudeAnalysis_run.
  destruct (messages_create w image mediaType); cbn [fst snd app]; eexists; reflexivity.
Qed.

(** X5: whatever media type the request declares, the vision service and
    the blob store are only ever handed one of the four supported types.
    For a request that passes the checks, the vision service is called with
    the image of the request and with the declared type when it is one of
    the four, with image/jpeg when it is anything else (another text, a
    non-text, nothing); and every call that carries a media type carries
    that same one. *)
Theorem external_media_type_is_valid (w : World) :
  (forall ev m, In ev (trace w) -> media_type_of ev = Some m -> In m VALID_MEDIA_TYPES) /\
  (forall k props image,
     truthy_env (ANTHROPIC_API_KEY w) = Some k ->
     req_json w = Ok (JObject props) ->
     obj_get props (lit "image") = Some (JString image) ->
     image <> [] ->
     (forall t, obj_get props (lit "mediaType") = Some (JString t) ->
        In t VALID_MEDIA_TYPES ->
        (exists rest, trace w = MessagesCreate image t :: rest) /\
        (forall ev m, In ev (trace w) -> media_type_of ev = Some m -> m = t)) /\
     ((forall t, obj_get props (lit "mediaType") = Some (JString t) ->
                 ~ In t VALID_MEDIA_TYPES) ->
        (exists rest, trace w = MessagesCreate image (lit "image/jpeg") :: rest) /\
        (forall ev m, In ev (trace w) -> media_type_of ev = Some m -> m = lit "image/jpeg"))).
Proof.
  split.
  - intros ev m Hin Hm.
    destruct (POST_cases w) as [[Ht _]|(image & mediaType & Hv)].
    + rewrite Ht in Hin. contradiction.
    + unfold trace in Hin. rewrite (POST_valid _ _ _ Hv) in Hin.
      rewrite (runScan_media_types _ _ _ _ _ Hin Hm).
      destruct Hv as (_ & props & _ & _ & _ & ->). apply resolveMediaType_valid.
  - intros k props image Hk Hr Hi Hne.
    assert (Hv : valid_request w image
                   (resolveMediaType (js_of (obj_get props (lit "mediaType"))))).
    { split; [eauto|]. exists props. repeat split; assumption. }
    assert (G : forall t,
               resolveMediaType (js_of (obj_get props (lit "mediaType"))) = t ->
               (exists rest, trace w = MessagesCreate image t :: rest) /\
               (forall ev m, In ev (trace w) -> media_type_of ev = Some m -> m = t)).
    { intros t Et. rewrite Et in Hv. unfold trace. rewrite (POST_valid _ _ _ Hv).
      split; [apply runScan_first_event|].
      intros ev m. apply runScan_media_types. }
    split.
    + intros t Ht Hin. apply G. rewrite Ht. now apply resolveMediaType_keeps.
    + intros Hno. apply G. apply resolveMediaType_default.
      intros t Et. destruct (obj_get props (lit "mediaType")) as [v|]; [|discriminate].
      injection Et as ->. now apply Hno.
Qed.

Lemma external_media_type_is_valid_witness :
  (exists rest, trace world_search_ok = MessagesCreate (lit "aGVsbG8=") (lit "image/png") :: rest)
  /\
  (exists rest, trace world_prose = MessagesCreate (lit "aGVsbG8=") (lit "image/jpeg") :: rest).
Proof.
  split.
  - apply (proj2 (external_media_type_is_valid world_search_ok) (lit "sk-1")
             [(lit "image", JString (lit "aGVsbG8=")); (lit "mediaType", JString (lit "image/png"))]
             (lit "aGVsbG8=") eq_refl eq_refl eq_refl ltac:(discriminate)
           : _ /\ _).
    + reflexivity.
    + vm_compute. tauto.
  - apply (proj2 (external_media_type_is_valid world_prose) (lit "sk-1")
             [(lit "image", JString (lit "aGVsbG8="))]
             (lit "aGVsbG8=") eq_refl eq_refl eq_refl ltac:(discriminate)
           : _ /\ _).
    intros t E. discriminate E.
Defined.

Lemma split_on_no_separator (c : N) (s : text) :
  Forall (fun x => x <> c) s -> split_on c s = [s].
Proof.
  induction 1 as [|x s Hx _ IH]; simpl; [reflexivity|].
  destruct (N.eqb_spec x c); [contradiction|]. now rewrite IH.
Qed.

(** X6: the object name of an upload always ends in one of the extensions
    jpg, png, gif and webp, whatever media type the request declared; and a
    media type without a slash falls back to jpg. *)
Theorem blob_extension_is_known (uuid : text) :
  (forall m : js,
     exists ext, In ext [lit "jpg"; lit "png"; lit "gif"; lit "webp"] /\
       blobFilename uuid (resolveMediaType m) = lit "temp-scans/" ++ uuid ++ lit "." ++ ext) /\
  (forall t, Forall (fun x => x <> 47%N) t -> extensionOf t = lit "jpg").
Proof.
  split.
  - intros m. exists (extensionOf (resolveMediaType m)). split; [|reflexivity].
    pose proof (resolveMediaType_valid m) as H.
    destruct H as [<-|[<-|[<-|[<-|[]]]]]; vm_compute; tauto.
  - intros t F. unfold extensionOf. now rewrite (split_on_no_separator _ _ F).
Qed.

Lemma blob_extension_is_known_witness :
  extensionOf (lit "jpeg") = lit "jpg" /\ extensionOf (lit "image/jpeg") = lit "jpg".
Proof.
  split.
  - apply (proj2 (blob_extension_is_known [])).
    repeat constructor; vm_compute; discriminate.
  - reflexivity.
Defined.

End MediaTypes.

Section Shapes.

Lemma external_calls_app (a b : list event) :
  external_calls (a ++ b) = external_calls a ++ external_calls b.
Proof. apply filter_app. Qed.

Lemma external_calls_none (t : list event) :
  Forall (fun ev => is_external_call ev = false) t -> external_calls t = [].
Proof.
  induction 1 as [|ev t H _ IH]; [reflexivity|].
  unfold external_calls in *. simpl. now rewrite H.
Qed.

(** X7: the external calls of one invocation, in order, are one of four
    sequences: none at all; the vision call alone; the vision call and an
    upload; the vision call, the upload, one search with the URL the upload
    returned and one deletion of that URL.  No service is called twice,
    nothing is searched or deleted that was not uploaded. *)
Theorem external_call_sequences (w : World) :
  external_calls (trace w) = [] \/
  exists image mediaType,
    valid_request w image mediaType /\
    (external_calls (trace w) = [MessagesCreate image mediaType] \/
     external_calls (trace w) = [MessagesCreate image mediaType; BlobPut image mediaType] \/
     exists key url,
       truthy_env (SERPAPI_KEY w) = Some key /\
       blob_put w image mediaType = Ok url /\
       external_calls (trace w)
       = [MessagesCreate image mediaType; BlobPut image mediaType;
          LensFetch url key; BlobDel url]).
Proof.
  destruct (POST_cases w) as [[Ht _]|(image & mediaType & Hv)].
  { left. now rewrite Ht. }
  right. exists image, mediaType. split; [exact Hv|].
  unfold trace. rewrite (POST_valid _ _ _ Hv), runScan_trace, !external_calls_app.
  assert (EA : external_calls (fst (fetchClaudeAnalysis w image mediaType))
               = [MessagesCreate image mediaType]).
  { rewrite fetchClaudeAnalysis_run. now destruct (messages_create w image mediaType). }
  assert (EC : external_calls
                 match snd (fetchClaudeAnalysis w image mediaType),
                       snd (webResultsPromise w image mediaType) with
                 | Ok _, Ok _ => []
                 | Err err, _ => [ConsoleError (lit "Scan error:") (caught_message err)]
                 | Ok _, Err err => [ConsoleError (lit "Scan error:") (caught_message err)]
                 end = []).
  { destruct (snd (fetchClaudeAnalysis w image mediaType));
      [destruct (snd (webResultsPromise w image mediaType))|]; reflexivity. }
  rewrite EA, EC, app_nil_r.
  destruct (webResultsPromise_trace w image mediaType)
    as [E|[(e & E & _)|(key & url & warns & Hk & Hp & E & F)]]; rewrite E.
  - left. reflexivity.
  - right. left. reflexivity.
  - right. right. exists key, url. repeat split; auto.
    rewrite external_calls_app, (external_calls_none _ F). reflexivity.
Qed.

Lemma external_call_sequences_witness :
  external_calls (trace world_no_credential) = [] \/
  exists image mediaType,
    valid_request world_no_credential image mediaType /\
    (external_calls (trace world_no_credential) = [MessagesCreate image mediaType] \/
     external_calls (trace world_no_credential)
     = [MessagesCreate image mediaType; BlobPut image mediaType] \/
     exists key url,
       truthy_env (SERPAPI_KEY world_no_credential) = Some key /\
       blob_put world_no_credential image mediaType = Ok url /\
       external_calls (trace world_no_credential)
       = [MessagesCreate image mediaType; BlobPut image mediaType;
          LensFetch url key; BlobDel url]).
Proof. apply (external_call_sequences world_no_credential). Defined.

Lemma runScan_responds (w : World) (image mediaType : text) :
  exists code body,
    snd (runScan w image mediaType) = Responded code body /\ In code [200; 502]%N.
Proof.
  rewrite runScan_response.
  destruct (snd (fetchClaudeAnalysis w image mediaType)) as [o|err].
  - destruct (snd (webResultsPromise w image mediaType)) as [l|err].
    + do 2 eexists. split; [reflexivity|]. simpl. tauto.
    + destruct (scanError_code err) as (b' & ->). do 2 eexists.
      split; [reflexivity|]. simpl. tauto.
  - destruct (scanError_code err) as (b' & ->). do 2 eexists.
    split; [reflexivity|]. simpl. tauto.
Qed.

(** X8: the handler answers with status 200, 400, 500 or 502 and nothing
    else; it lets an exception escape exactly when the vision credential is
    set and the request body is the JSON value null, and then before any
    external call. *)
Theorem POST_status_codes (w : World) :
  match response w with
  | Responded code _ => In code [200; 400; 500; 502]%N
  | Uncaught _ => trace w = []
  end /\
  ((exists e, response w = Uncaught e) <->
   (exists k, truthy_env (ANTHROPIC_API_KEY w) = Some k) /\ req_json w = Ok JNull).
Proof.
  assert (Hscan : forall i m,
            match snd (runScan w i m) with
            | Responded code _ => In code [200; 400; 500; 502]%N
            | Uncaught _ => fst (runScan w i m) = []
            end /\ forall e, snd (runScan w i m) <> Uncaught e).
  { intros i m. destruct (runScan_responds w i m) as (code & body & -> & Hc).
    split; [|intros e; discriminate].
    simpl in *. tauto. }
  unfold response, trace, POST.
  destruct (truthy_env (ANTHROPIC_API_KEY w)) as [k|].
  2:{ split; [simpl; tauto|]. split; [intros (e & He); discriminate|].
      intros ((k & Hk) & _). discriminate. }
  destruct (req_json w) as [body|e'].
  2:{ split; [simpl; tauto|]. split; [intros (e & He); discriminate|].
      intros (_ & Hr). discriminate. }
  destruct body; cbn [get_prop].
  - split; [reflexivity|]. split; [eauto|]. intros _. now exists typeError.
  - split; [simpl; tauto|]. split; [intros (e & He); discriminate|].
    intros (_ & Hr). discriminate.
  - split; [simpl; tauto|]. split; [intros (e & He); discriminate|].
    intros (_ & Hr). discriminate.
  - split; [simpl; tauto|]. split; [intros (e & He); discriminate|].
    intros (_ & Hr). discriminate.
  - split; [simpl; tauto|]. split; [intros (e & He); discriminate|].
    intros (_ & Hr). discriminate.
  - destruct (obj_get props (lit "image")) as [[| | |[|c r]| |]|];
      destruct (obj_get props (lit "mediaType"));
      try (split; [simpl; tauto|]; split; [intros (e & He); discriminate|];
           intros (_ & Hr); discriminate);
      match goal with
      | |- context [runScan ?w ?i ?m] =>
          destruct (Hscan i m) as (H1 & H2); split; [exact H1|];
          split; [intros (e & He); now apply H2 in He | intros (_ & Hr); discriminate]
      end.
Qed.

End Shapes.

Section Results.

Lemma POST_status_codes_witness :
  exists e, response world_null_body = Uncaught e.
Proof.
  apply (proj2 (proj2 (POST_status_codes world_null_body))).
  split; [exists (lit "sk-1")|]; reflexivity.
Defined.

Lemma obj_set_key_in {V : Type} (o : list (text * V)) (k k2 : text) (v : V) :
  In k2 (map fst (obj_set o k v)) -> k2 = k \/ In k2 (map fst o).
Proof.
  induction o as [|[k' v'] o IH]; simpl.
  - intros [<-|[]]. now left.
  - destruct (text_eqb k' k); simpl.
    + intros [<-|H]; right; [now left | now right].
    + intros [<-|H]; [right; now left|].
      destruct (IH H) as [->|H']; [now left | right; now right].
Qed.

Lemma obj_set_nodup {V : Type} (o : list (text * V)) (k : text) (v : V) :
  NoDup (map fst o) -> NoDup (map fst (obj_set o k v)).
Proof.
  induction o as [|[k' v'] o IH]; simpl; intros H.
  - constructor; [intros []|constructor].
  - inversion H as [|? ? Hn Hd]; subst.
    destruct (text_eqb k' k) eqn:E; simpl.
    + now constructor.
    + constructor; [|now apply IH].
      intros Hin. apply obj_set_key_in in Hin as [->|Hin]; [|contradiction].
      now rewrite text_eqb_refl in E.
Qed.

Lemma obj_get_key_in {V : Type} (o : list (text * V)) (k : text) (v : V) :
  obj_get o k = Some v -> In k (map fst o).
Proof.
  induction o as [|[k' v'] o IH]; simpl; [discriminate|].
  destruct (text_eqb k' k) eqn:E.
  - intros _. apply text_eqb_eq in E. now left.
  - intros H. right. now apply IH.
Qed.

Lemma parse_members_nodup (n : nat) :
  forall acc s o rest,
    parse_members n acc s = POk o rest -> NoDup (map fst acc) -> NoDup (map fst o).
Proof.
  induction n as [|n IH]; intros acc s o rest H Hd; [discriminate|].
  cbn [parse_members] in H.
  destruct s as [|c r]; [discriminate|].
  destruct (c =? QUOTE)%N; [|discriminate].
  destruct (parse_chars r) as [k s1| |]; try discriminate.
  destruct (skip_jws s1) as [|c1 s2]; [discriminate|].
  destruct (c1 =? COLON)%N; [|discriminate].
  destruct (parse_value n (skip_jws s2)) as [v s3| |]; try discriminate.
  destruct (skip_jws s3) as [|c2 s4]; [discriminate|].
  destruct (c2 =? COMMA)%N.
  - eapply IH; [exact H|]. now apply obj_set_nodup.
  - destruct (c2 =? RBRACE)%N; [|discriminate].
    injection H as <- _. now apply obj_set_nodup.
Qed.

Lemma parse_value_object_nodup (n : nat) (s : text) (o : list (text * json)) (rest : text) :
  parse_value n s = POk (JObject o) rest -> NoDup (map fst o).
Proof.
  destruct n as [|n]; [discriminate|]. cbn [parse_value]. intros H.
  destruct s as [|c r]; [discriminate|].
  destruct (c =? LBRACE)%N.
  { destruct (skip_jws r) as [|d r']; [discriminate|].
    destruct (d =? RBRACE)%N.
    - injection H as <- _. constructor.
    - apply pmap_ok in H as (o' & H & E). injection E as ->.
      eapply parse_members_nodup; [exact H|constructor]. }
  destruct (c =? LBRACKET)%N.
  { destruct (skip_jws r) as [|d r']; [discriminate|].
    destruct (d =? RBRACKET)%N; [discriminate|].
    apply pmap_ok in H as (l' & _ & E). discriminate. }
  destruct (c =? QUOTE)%N.
  { apply pmap_ok in H as (t & _ & E). discriminate. }
  destruct (c =? 116)%N. { apply parse_keyword_split in H as (_ & E). discriminate. }
  destruct (c =? 102)%N. { apply parse_keyword_split in H as (_ & E). discriminate. }
  destruct (c =? 110)%N. { apply parse_keyword_split in H as (_ & E). discriminate. }
  destruct ((c =? MINUS)%N || isDigit c); [|discriminate].
  apply pmap_ok in H as (t & _ & E). discriminate.
Qed.

Lemma JSON_parse_object_nodup (c : text) (o : list (text * json)) :
  JSON_parse c = Ok (JObject o) -> NoDup (map fst o).
Proof.
  unfold JSON_parse, parse_json_text. intros H.
  destruct (parse_value (2 * length c + 2) (skip_jws c)) as [v rest| |] eqn:E;
    try discriminate.
  destruct (skip_jws rest); [|discriminate]. injection H as ->.
  now apply parse_value_object_nodup in E.
Qed.

(** X9: the properties of an extracted object have pairwise distinct
    names (a repeated name in the reply keeps its first place and its last
    value), and so have the properties of every 200 answer, among which
    webResults occurs. *)
Theorem response_keys_distinct (w : World) :
  (forall raw o, extractJson raw = Ok (Some o) -> NoDup (map fst o)) /\
  (forall body, response w = Responded 200 body ->
     NoDup (map fst body) /\ In (lit "webResults") (map fst body)).
Proof.
  assert (Hx : forall raw o, extractJson raw = Ok (Some o) -> NoDup (map fst o)).
  { intros raw o H. apply extract_loop_some in H as (c & _ & Hp).
    now apply JSON_parse_object_nodup in Hp. }
  split; [exact Hx|].
  intros body H.
  destruct (POST_cases w) as [[_ Hn]|(image & mediaType & Hv)]; [now apply Hn in H|].
  unfold response in H. rewrite (POST_valid _ _ _ Hv), runScan_response in H.
  rewrite fetchClaudeAnalysis_run in H.
  destruct (messages_create w image mediaType) as [content|err]; cbn [snd] in H.
  2:{ destruct (scanError_code err) as (b' & E). rewrite E in H. discriminate. }
  destruct (extractJson (rawTextOf content)) as [[o|]|err] eqn:Ex.
  - destruct (snd (webResultsPromise w image mediaType)) as [web|err].
    2:{ destruct (scanError_code err) as (b' & E). rewrite E in H. discriminate. }
    injection H as <-. split.
    + unfold success_body. apply obj_set_nodup.
      unfold spread. rewrite map_map. simpl.
      rewrite <- (map_ext fst (fun x => fst x)) by reflexivity.
      now apply Hx in Ex.
    + eapply obj_get_key_in. apply success_body_webResults.
  - match type of H with snd (scanError ?e) = _ =>
      destruct (scanError_code e) as (b' & E); rewrite E in H; discriminate end.
  - destruct (scanError_code err) as (b' & E). rewrite E in H. discriminate.
Qed.

Lemma response_keys_distinct_witness :
  NoDup (map fst [(lit "a", JNumber (lit "2")); (lit "b", JNull)]) /\
  In (lit "webResults")
     (map fst [(lit "description", FJson (JString (lit "A red mug")));
               (lit "webResults", FWebResults [])]).
Proof.
  destruct (response_keys_distinct world_no_enrichment) as (H1 & H2). split.
  - apply (H1 (qlit "{'a':1,'b':null,'a':2}")). vm_compute. reflexivity.
  - apply (H2 [(lit "description", FJson (JString (lit "A red mug")));
               (lit "webResults", FWebResults [])]).
    vm_compute. reflexivity.
Defined.

Lemma toWebResult_rejects (m : json) (e : thrown) :
  toWebResult m = Err e <-> m = JNull /\ e = typeError.
Proof.
  split.
  - destruct m; unfold toWebResult; cbn [get_prop]; try discriminate.
    intros H. injection H as <-. now split.
  - intros [-> ->]. reflexivity.
Qed.

Lemma map_results_rejects (ms : list json) :
  (exists e, map_results ms = Err e) <-> In JNull ms.
Proof.
  induction ms as [|m ms IH]; simpl.
  - split; [intros (e & H); discriminate | intros []].
  - destruct (toWebResult m) as [x|e] eqn:Ex.
    + destruct (map_results ms) as [xs|e'].
      * split; [intros (e & H); discriminate|].
        intros [->|H]; [discriminate|]. apply IH in H as (e & H). discriminate.
      * split; [intros _; right; apply IH; eauto | eauto].
    + apply toWebResult_rejects in Ex as [-> ->]. split; [now left | eauto].
Qed.









(** X11: a null entry among the first five visual matches, and nothing
    else in an array of matches, makes the mapping throw a TypeError; the
    optional chain then resolves to the empty list, all matches dropped.  A
    null entry after the fifth is never looked at. *)
Theorem null_match_drops_results
        (w : World) (url key : text) (res : Response)
        (props : list (text * json)) (ms : list json) :
  lens_fetch w url key = Ok res ->
  ok res = true ->
  json_body res = Ok (JObject props) ->
  obj_get props (lit "visual_matches") = Some (JArray ms) ->
  (In JNull (firstn 5 ms) <-> snd (fetchLensResults w url key) = Err typeError) /\
  (In JNull (firstn 5 ms) ->
   forall image mediaType b,
     truthy_env (SERPAPI_KEY w) = Some key ->
     truthy_env (BLOB_READ_WRITE_TOKEN w) = Some b ->
     blob_put w image mediaType = Ok url ->
     snd (webResultsPromise w image mediaType) = Ok []).
Proof.
  intros Hf Hok Hb Hm.
  assert (E : snd (fetchLensResults w url key) = map_results (firstn 5 ms)).
  { rewrite (fetchLensResults_ok _ _ _ _ _ Hf Hok Hb).
    unfold lensResultsOf. cbn [get_prop]. now rewrite Hm. }
  assert (G : In JNull (firstn 5 ms) <-> snd (fetchLensResults w url key) = Err typeError).
  { rewrite E. split.
    - intros Hin. apply map_results_rejects in Hin as (e & He). rewrite He. f_equal.
      clear - He. revert He. induction (firstn 5 ms) as [|m l IH]; simpl; [discriminate|].
      destruct (toWebResult m) as [x|e'] eqn:Ex.
      + destruct (map_results l) as [xs|e'']; [discriminate|].
        intros H. injection H as <-. now apply IH.
      + intros H. injection H as <-. now apply toWebResult_rejects in Ex as [_ ->].
    - intros He. apply map_results_rejects. eauto. }
  split; [exact G|].
  intros Hin image mediaType b Hs Hbt Hp.
  rewrite (webResultsPromise_uploaded _ _ _ _ _ _ Hs Hbt Hp). cbn [snd].
  now rewrite (proj1 G Hin).
Qed.

Lemma null_match_drops_results_witness :
  snd (webResultsPromise world_null_match (lit "aGVsbG8=") (lit "image/jpeg")) = Ok [].
Proof.
  pose proof (null_match_drops_results world_null_match (lit "u") (lit "k")
                {| status := 200;
                   json_body := JSON_parse (qlit "{'visual_matches':[{'title':'a'},null]}") |}
                [(lit "visual_matches",
                  JArray [JObject [(lit "title", JString (lit "a"))]; JNull])]
                [JObject [(lit "title", JString (lit "a"))]; JNull]
                eq_refl eq_refl) as H.
  destruct H as (_ & H).
  - vm_compute. reflexivity.
  - reflexivity.
  - apply (H ltac:(simpl; tauto) (lit "aGVsbG8=") (lit "image/jpeg") (lit "blob-1"));
      reflexivity.
Defined.

End Results.

(* ------------------------------------------------------------------ *)
(** * Properties of the pages                                            *)
(* ------------------------------------------------------------------ *)

Section SharedTitle.

Lemma trim_split_ws (s : text) :
  exists pre post, s = pre ++ trim s ++ post /\
                   Forall (fun c => isWhiteSpace c = true) pre /\
                   Forall (fun c => isWhiteSpace c = true) post.
Proof.
  unfold trim.
  destruct (drop_while_split isWhiteSpace s) as (p1 & E1 & F1).
  destruct (drop_while_split isWhiteSpace (rev (skip_ws s))) as (p2 & E2 & F2).
  fold skip_ws in E1, E2 |- *.
  exists p1, (rev p2). repeat split; auto using Forall_rev.
  rewrite <- rev_app_distr, <- E2, rev_involutive. exact E1.
Qed.

Lemma skip_ws_id (s : text) :
  (forall c r, s = c :: r -> isWhiteSpace c = false) -> skip_ws s = s.
Proof.
  intros H. destruct s as [|c r]; [reflexivity|].
  unfold skip_ws. apply drop_while_id. now apply (H c r).
Qed.

Lemma trim_trimmed_id (s : text) : trimmed s -> trim s = s.
Proof.
  intros [Hh Hl]. unfold trim. rewrite (skip_ws_id s Hh).
  rewrite skip_ws_id; [apply rev_involutive|].
  intros c r E. apply (Hl c (rev r)).
  rewrite <- (rev_involutive s), E. reflexivity.
Qed.

Lemma first_piece_split (p : N -> bool) (s : text) :
  Forall (fun c => p c = false) (first_piece p s) /\
  (first_piece p s = s \/
   exists c r, p c = true /\ s = first_piece p s ++ c :: r).
Proof.
  induction s as [|c s (F & IH)]; simpl.
  - split; [constructor | now left].
  - destruct (p c) eqn:E.
    + split; [constructor|]. right. now exists c, s.
    + split; [now constructor|].
      destruct IH as [->|(d & r & Hd & Es)]; [now left|].
      right. exists d, r. split; [exact Hd|]. simpl. now rewrite <- Es.
Qed.

Lemma first_piece_id (p : N -> bool) (s : text) :
  Forall (fun c => p c = false) s -> first_piece p s = s.
Proof.
  induction 1 as [|c s Hc _ IH]; simpl; [reflexivity|]. now rewrite Hc, IH.
Qed.

(** X12: the title shared from the results page holds none of the marks
    . ! ? and no white space at either end; it is the piece of the
    description that starts after the leading white space, and what follows
    it is white space up to the first mark or the end; taking the title of a
    title changes nothing. *)
Theorem shareTitle_first_sentence (d : text) :
  Forall (fun c => isSentenceEnd c = false) (shareTitle d) /\
  trimmed (shareTitle d) /\
  (exists pre post rest,
     d = pre ++ shareTitle d ++ post ++ rest /\
     Forall (fun c => isWhiteSpace c = true) pre /\
     Forall (fun c => isWhiteSpace c = true) post /\
     (rest = [] \/ exists c r, isSentenceEnd c = true /\ rest = c :: r)) /\
  shareTitle (shareTitle d) = shareTitle d.
Proof.
  unfold shareTitle.
  destruct (first_piece_split isSentenceEnd d) as (F & Hs).
  destruct (trim_split_ws (first_piece isSentenceEnd d)) as (pre & post & E & Fp & Fq).
  assert (Ft : Forall (fun c => isSentenceEnd c = false) (trim (first_piece isSentenceEnd d))).
  { rewrite E in F. apply Forall_app in F as [_ F]. now apply Forall_app in F as [F _]. }
  split; [exact Ft|]. split; [apply trim_trimmed|]. split.
  - destruct Hs as [Hs|(c & r & Hc & Hs)].
    + exists pre, post, []. rewrite app_nil_r. repeat split; auto.
      now rewrite <- E.
    + exists pre, post, (c :: r). repeat split; eauto.
      rewrite Hs at 1. rewrite E at 1. now rewrite <- !app_assoc.
  - rewrite (first_piece_id _ _ Ft). apply trim_trimmed_id, trim_trimmed.
Qed.

End SharedTitle.

Section ClientRequest.

Lemma N_below (k : nat) (n : N) :
  (n < N.of_nat k)%N -> In n (map N.of_nat (seq 0 k)).
Proof.
  intros H. apply in_map_iff. exists (N.to_nat n). split; [apply N2Nat.id|].
  apply in_seq. lia.
Qed.

Lemma unbase64_b64char (n : N) :
  (n < 64)%N -> unbase64 (b64char n) = Some n /\ (b64char n =? 61)%N = false.
Proof.
  intros H.
  assert (G : forallb (fun n => match unbase64 (b64char n) with
                                | Some m => (m =? n)%N
                                | None => false
                                end && negb (b64char n =? 61)%N)
                      (map N.of_nat (seq 0 64)) = true) by (vm_compute; reflexivity).
  rewrite forallb_forall in G. specialize (G n (N_below 64 n H)).
  apply andb_true_iff in G as [G1 G2].
  destruct (unbase64 (b64char n)) as [m|]; [|discriminate].
  apply N.eqb_eq in G1. subst. split; [reflexivity|].
  now destruct (b64char n =? 61)%N.
Qed.

Lemma sextets_char (n : N) (r : text) :
  (n < 64)%N -> sextets (b64char n :: r) = n :: sextets r.
Proof.
  intros H. destruct (unbase64_b64char n H) as [E1 E2].
  cbn [sextets]. now rewrite E2, E1.
Qed.

Lemma base64_round_trip_len (k : nat) :
  forall l, length l <= k -> Forall (fun b => (b < 256)%N) l ->
            uploadedBytes (base64_encode l) = l.
Proof.
  unfold uploadedBytes.
  induction k as [|k IH]; intros l Hl F.
  - destruct l; [reflexivity | simpl in Hl; lia].
  - destruct l as [|a [|b [|c r]]]; [reflexivity| | |].
    + inversion F as [|? ? Ha _]; subst. cbn [base64_encode].
      rewrite !sextets_char by (zify; Z.to_euclidean_division_equations; lia).
      cbn [sextets N.eqb Pos.eqb bytes_of_sextets]. f_equal.
      zify; Z.to_euclidean_division_equations; lia.
    + inversion F as [|? ? Ha F1]; subst. inversion F1 as [|? ? Hb _]; subst.
      cbn [base64_encode].
      rewrite !sextets_char by (zify; Z.to_euclidean_division_equations; lia).
      cbn [sextets N.eqb Pos.eqb bytes_of_sextets]. f_equal; [|f_equal];
        zify; Z.to_euclidean_division_equations; lia.
    + inversion F as [|? ? Ha F1]; subst. inversion F1 as [|? ? Hb F2]; subst.
      inversion F2 as [|? ? Hc F3]; subst.
      cbn [base64_encode app].
      rewrite !sextets_char by (zify; Z.to_euclidean_division_equations; lia).
      cbn [bytes_of_sextets app].
      rewrite IH by (auto; simpl in Hl; lia).
      f_equal; [|f_equal; [|f_equal]]; zify; Z.to_euclidean_division_equations; lia.
Qed.

Lemma map_to_N_bounded (content : list Byte.byte) :
  Forall (fun b => (b < 256)%N) (map Byte.to_N content).
Proof.
  induction content as [|x content IH]; simpl; constructor; [|exact IH].
  pose proof (Byte.to_N_bounded x). lia.
Qed.

(** X13: the bytes handed to the blob store are the bytes of the file the
    user chose: decoding, as uploadImage does, the base64 text that
    handleFile builds gives back the content of the file. *)
Theorem upload_restores_file_bytes (content : list Byte.byte) :
  uploadedBytes (fileBase64 content) = map Byte.to_N content.
Proof.
  unfold fileBase64.
  apply (base64_round_trip_len (length (map Byte.to_N content))); [lia|].
  apply map_to_N_bounded.
Qed.

End ClientRequest.

Section RequestBody.

Lemma hexValue_hexDigit (n : N) : (n < 16)%N -> hexValue (hexDigit n) = Some n.
Proof.
  intros H.
  assert (G : forallb (fun n => match hexValue (hexDigit n) with
                                | Some m => (m =? n)%N
                                | None => false
                                end) (map N.of_nat (seq 0 16)) = true)
    by (vm_compute; reflexivity).
  rewrite forallb_forall in G. specialize (G n (N_below 16 n H)).
  destruct (hexValue (hexDigit n)) as [m|]; [|discriminate].
  apply N.eqb_eq in G. now subst.
Qed.

Lemma parse_chars_literal (c : N) (x : text) :
  c <> 34%N -> c <> 92%N -> (32 <= c)%N ->
  parse_chars (c :: x) = continue_with c (parse_chars x).
Proof.
  intros H1 H2 H3. cbn [parse_chars]. unfold QUOTE, BACKSLASH.
  destruct (N.eqb_spec c 34); [contradiction|].
  destruct (N.eqb_spec c 92); [contradiction|].
  destruct (N.ltb_spec c 32); [lia|]. reflexivity.
Qed.

Lemma parse_chars_short (c l : N) (x : text) :
  shortEscape c = Some l ->
  parse_chars (BACKSLASH :: l :: x) = continue_with c (parse_chars x).
Proof.
  unfold shortEscape. intros H.
  repeat match type of H with
         | (if (?a =? ?b)%N then _ else _) = _ =>
             destruct (N.eqb_spec a b); [injection H as <-; subst; reflexivity|]
         end.
  discriminate.
Qed.

Lemma parse_chars_unicode (c : N) (x : text) :
  (c < 65536)%N ->
  parse_chars (unicodeEscape c ++ x) = continue_with c (parse_chars x).
Proof.
  intros H. unfold unicodeEscape. cbn [app parse_chars].
  change (BACKSLASH =? QUOTE)%N with false. change (BACKSLASH =? BACKSLASH)%N with true.
  change (117 =? 117)%N with true. cbv iota.
  rewrite !hexValue_hexDigit by (zify; Z.to_euclidean_division_equations; lia).
  replace ((((c / 4096) * 16 + (c / 256) mod 16) * 16 + (c / 16) mod 16) * 16 + c mod 16)%N
    with c by (zify; Z.to_euclidean_division_equations; lia).
  reflexivity.
Qed.

Lemma shortEscape_none (c : N) :
  shortEscape c = None -> c <> 34%N /\ c <> 92%N.
Proof.
  unfold shortEscape. intros H. split; intros ->; discriminate.
Qed.

Lemma parse_chars_quote_len (k : nat) :
  forall s rest, length s <= k -> utf16 s ->
                 parse_chars (quote_units s ++ QUOTE :: rest) = POk s rest.
Proof.
  induction k as [|k IH]; intros s rest Hl F.
  - destruct s; [|simpl in Hl; lia]. cbn [quote_units app parse_chars].
    now rewrite N.eqb_refl.
  - destruct s as [|c r].
    { cbn [quote_units app parse_chars]. now rewrite N.eqb_refl. }
    inversion F as [|? ? Hc Fr]; subst. simpl in Hl.
    assert (IHr : parse_chars (quote_units r ++ QUOTE :: rest) = POk r rest)
      by (apply IH; [lia|exact Fr]).
    cbn [quote_units].
    destruct (shortEscape c) as [l|] eqn:Es.
    { cbn [app]. now rewrite (parse_chars_short c l _ Es), IHr. }
    destruct (shortEscape_none c Es) as [Hq Hb].
    destruct (N.ltb_spec c 32).
    { rewrite <- app_assoc, parse_chars_unicode by exact Hc. now rewrite IHr. }
    destruct (isLeadSurrogate c) eqn:El.
    { destruct r as [|d r'].
      - rewrite parse_chars_unicode by exact Hc.
        cbn [parse_chars]. now rewrite N.eqb_refl.
      - destruct (isTrailSurrogate d) eqn:Et.
        + inversion Fr as [|? ? Hd Fr']; subst.
          cbn [app]. rewrite parse_chars_literal by assumption.
          rewrite parse_chars_literal.
          * rewrite IH; [reflexivity | simpl in Hl; lia | exact Fr'].
          * intros ->. discriminate.
          * intros ->. discriminate.
          * unfold isTrailSurrogate in Et. apply andb_true_iff in Et as [Et _].
            apply N.leb_le in Et. lia.
        + rewrite <- app_assoc, parse_chars_unicode by exact Hc. now rewrite IHr. }
    destruct (isTrailSurrogate c).
    { rewrite <- app_assoc, parse_chars_unicode by exact Hc. now rewrite IHr. }
    cbn [app]. rewrite parse_chars_literal by assumption. now rewrite IHr.
Qed.

Lemma parse_chars_quote (s rest : text) :
  utf16 s -> parse_chars (quote_units s ++ QUOTE :: rest) = POk s rest.
Proof. apply (parse_chars_quote_len (length s)). lia. Qed.

Lemma base64_encode_utf16 (l : list N) : utf16 (base64_encode l).
Proof.
  assert (Hc : forall n, (b64char n < 65536)%N).
  { intros n. unfold b64char.
    destruct (N.ltb_spec n 26); [lia|]. destruct (N.ltb_spec n 52); [lia|].
    destruct (N.ltb_spec n 62); [lia|]. destruct (n =? 62)%N; lia. }
  assert (G : forall k l, length l <= k -> utf16 (base64_encode l)).
  { clear l. induction k as [|k IH]; intros l Hl.
    - destruct l; [constructor | simpl in Hl; lia].
    - destruct l as [|a [|b [|c r]]]; cbn [base64_encode app];
        repeat (constructor; [first [apply Hc | lia]|]);
        try constructor.
      apply IH. simpl in Hl. lia. }
  apply (G (length l)). lia.
Qed.

Lemma base64_encode_empty (l : list N) : base64_encode l = [] <-> l = [].
Proof.
  split; [|now intros ->].
  destruct l as [|a [|b [|c r]]]; [reflexivity|discriminate..].
Qed.

(** The body built by the client parses to the object it was built from. *)
Lemma clientRequestBody_parses (base64 fileType : text) :
  utf16 base64 -> utf16 fileType ->
  JSON_parse (clientRequestBody base64 fileType)
  = Ok (JObject [(lit "image", JString base64); (lit "mediaType", JString fileType)]).
Proof.
  intros Hb Ht.
  assert (Hi : utf16 (lit "image")) by (repeat constructor).
  assert (Hm : utf16 (lit "mediaType")) by (repeat constructor).
  unfold JSON_parse, parse_json_text.
  set (body := clientRequestBody base64 fileType).
  assert (Hfuel : exists k, 2 * length body + 2 = S (S (S (S k)))).
  { exists (2 * length body + 2 - 4). unfold body, clientRequestBody. simpl length. lia. }
  destruct Hfuel as (k & ->).
  assert (E : parse_value (S (S (S (S k)))) (skip_jws body)
              = POk (JObject [(lit "image", JString base64);
                              (lit "mediaType", JString fileType)]) []).
  { unfold body, clientRequestBody, stringify_string.
    cbn [app]. rewrite <- !app_assoc. cbn [app].
    unfold skip_jws at 1. cbn [drop_while]. change (isJsonWhiteSpace LBRACE) with false.
    cbv iota.
    cbn [parse_value]. rewrite N.eqb_refl.
    unfold skip_jws at 1. cbn [drop_while]. change (isJsonWhiteSpace QUOTE) with false.
    cbv iota. change (QUOTE =? RBRACE)%N with false. cbv iota.
    cbn [parse_members pmap]. rewrite N.eqb_refl.
    rewrite (parse_chars_quote _ _ Hi).
    unfold skip_jws at 1. cbn [drop_while]. change (isJsonWhiteSpace COLON) with false.
    cbv iota. rewrite N.eqb_refl.
    unfold skip_jws at 1. cbn [drop_while]. change (isJsonWhiteSpace QUOTE) with false.
    cbv iota.
    cbn [parse_value]. change (QUOTE =? LBRACE)%N with false.
    change (QUOTE =? LBRACKET)%N with false. rewrite N.eqb_refl. cbv iota.
    rewrite (parse_chars_quote _ _ Hb). cbn [pmap].
    unfold skip_jws at 1. cbn [drop_while]. change (isJsonWhiteSpace COMMA) with false.
    cbv iota. rewrite N.eqb_refl.
    unfold skip_jws at 1. cbn [drop_while]. change (isJsonWhiteSpace QUOTE) with false.
    cbv iota.
    cbn [parse_members]. rewrite N.eqb_refl.
    rewrite (parse_chars_quote _ _ Hm).
    unfold skip_jws at 1. cbn [drop_while]. change (isJsonWhiteSpace COLON) with false.
    cbv iota. rewrite N.eqb_refl.
    unfold skip_jws at 1. cbn [drop_while]. change (isJsonWhiteSpace QUOTE) with false.
    cbv iota.
    cbn [parse_value]. change (QUOTE =? LBRACE)%N with false.
    change (QUOTE =? LBRACKET)%N with false. rewrite N.eqb_refl. cbv iota.
    rewrite (parse_chars_quote _ _ Ht). cbn [pmap].
    unfold skip_jws at 1. cbn [drop_while]. change (isJsonWhiteSpace RBRACE) with false.
    cbv iota. change (RBRACE =? COMMA)%N with false. rewrite N.eqb_refl. cbv iota.
    reflexivity. }
  rewrite E. reflexivity.
Qed.

End RequestBody.

Section ClientToServer.

(** X14: the body that handleFile posts for an image file passes every
    check of the handler: the handler calls the vision service, first of
    all, with the base64 text of the file and with the type of the file
    when it is one of the four supported types, with image/jpeg otherwise;
    and it answers 200 or 502.  The one exception is an empty file, whose
    base64 text is empty: it is answered 400 as a missing image, and no
    service is called. *)
Theorem client_request_reaches_scan
        (w : World) (fileType : text) (content : list Byte.byte) (body : text) :
  handleFile_request fileType content = Some body ->
  utf16 fileType ->
  (exists k, truthy_env (ANTHROPIC_API_KEY w) = Some k) ->
  req_json w = JSON_parse body ->
  (content <> [] ->
     (exists code answer, response w = Responded code answer /\ In code [200; 502]%N) /\
     (In fileType VALID_MEDIA_TYPES ->
        exists rest, trace w = MessagesCreate (fileBase64 content) fileType :: rest) /\
     (~ In fileType VALID_MEDIA_TYPES ->
        exists rest, trace w = MessagesCreate (fileBase64 content) (lit "image/jpeg") :: rest))
  /\
  (content = [] ->
     POST w = ([], Responded 400
                     [(lit "error",
                       FJson (JString (lit "Missing base64 image in request body.")))])).
Proof.
  unfold handleFile_request. intros Hreq Ht (k & Hk) Hr.
  destruct (match_prefix (lit "image/") fileType); [|discriminate].
  injection Hreq as <-.
  unfold fileBase64 in Hr.
  rewrite (clientRequestBody_parses _ _ (base64_encode_utf16 _) Ht) in Hr.
  fold (fileBase64 content) in Hr.
  split.
  - intros Hne.
    assert (Hv : valid_request w (fileBase64 content)
                   (resolveMediaType (JVal (JString fileType)))).
    { split; [eauto|].
      exists [(lit "image", JString (fileBase64 content)); (lit "mediaType", JString fileType)].
      split; [exact Hr|]. split; [reflexivity|]. split; [|reflexivity].
      unfold fileBase64. intros E. apply (proj1 (base64_encode_empty _)) in E.
      destruct content; [now apply Hne | simpl in E; discriminate]. }
    unfold response, trace. rewrite (POST_valid _ _ _ Hv).
    split; [apply runScan_responds|].
    destruct (runScan_first_event w (fileBase64 content)
                (resolveMediaType (JVal (JString fileType)))) as (rest & E).
    split.
    + intros Hin. exists rest. rewrite E. now rewrite (resolveMediaType_keeps _ Hin).
    + intros Hno. exists rest. rewrite E.
      rewrite (resolveMediaType_default (JVal (JString fileType))); [reflexivity|].
      intros t0 Et. injection Et as <-. exact Hno.
  - intros ->. unfold POST. rewrite Hk, Hr. reflexivity.
Qed.

Lemma client_request_reaches_scan_witness :
  (exists rest,
     trace world_search_ok
     = MessagesCreate (fileBase64 [Byte.x68; Byte.x65; Byte.x6c; Byte.x6c; Byte.x6f])
                      (lit "image/png") :: rest)
  /\
  POST world_empty_file
  = ([], Responded 400
           [(lit "error", FJson (JString (lit "Missing base64 image in request body.")))]).
Proof.
  split.
  - apply (proj1 (proj2 (proj1 (client_request_reaches_scan world_search_ok (lit "image/png")
                  [Byte.x68; Byte.x65; Byte.x6c; Byte.x6c; Byte.x6f]
                  (qlit "{'image':'aGVsbG8=','mediaType':'image/png'}")
                  eq_refl ltac:(repeat constructor)
                  (ex_intro _ (lit "sk-1") eq_refl) eq_refl) ltac:(discriminate)))).
    vm_compute. tauto.
  - apply (proj2 (client_request_reaches_scan world_empty_file (lit "image/png") []
                  (qlit "{'image':'','mediaType':'image/png'}")
                  eq_refl ltac:(repeat constructor)
                  (ex_intro _ (lit "sk-1") eq_refl) eq_refl)).
    reflexivity.
Defined.

End ClientToServer.

(* ------------------------------------------------------------------ *)
(** * The earlier revision against the current one                      *)
(* ------------------------------------------------------------------ *)

Section Revisions.

Variable syntaxErrorMessage : text -> text.

Lemma POST_v1_valid (w : World) (image mediaType : text) :
  valid_request w image mediaType ->
  POST_v1 syntaxErrorMessage w = runScan_v1 syntaxErrorMessage w image mediaType.
Proof.
  intros ((k & Hk) & props & Hr & Hi & Hne & ->).
  unfold POST_v1. rewrite Hk, Hr. cbn [get_prop]. rewrite Hi.
  destruct image as [|c r]; [contradiction|].
  unfold js_of. now destruct (obj_get props (lit "mediaType")).
Qed.

Lemma fetchClaudeAnalysis_v1_run (w : World) (image mediaType : text) :
  snd (fetchClaudeAnalysis_v1 syntaxErrorMessage w image mediaType) =
  match messages_create w image mediaType with
  | Err e => Err e
  | Ok content =>
      match parse_json_text (fenceStripped (rawTextOf content)) with
      | POk v _ => Ok v
      | _ => Err (ErrorObject (syntaxErrorMessage (fenceStripped (rawTextOf content))))
      end
  end.
Proof.
  unfold fetchClaudeAnalysis_v1, bind, call, throw, ret.
  destruct (messages_create w image mediaType) as [content|e]; [|reflexivity].
  now destruct (parse_json_text (fenceStripped (rawTextOf content))).
Qed.

Lemma runScan_v1_response (w : World) (image mediaType : text) :
  snd (runScan_v1 syntaxErrorMessage w image mediaType) =
  match snd (fetchClaudeAnalysis_v1 syntaxErrorMessage w image mediaType),
        snd (webResultsPromise w image mediaType) with
  | Ok v, Ok webResults =>
      Responded 200 (obj_set (spread_value v) (lit "webResults") (FWebResults webResults))
  | Err err, _ => snd (scanError_v1 err)
  | Ok _, Err err => snd (scanError_v1 err)
  end.
Proof.
  unfold runScan_v1.
  destruct (fetchClaudeAnalysis_v1 syntaxErrorMessage w image mediaType) as [tA [c|e]];
    destruct (webResultsPromise w image mediaType) as [tB [l|e']]; reflexivity.
Qed.

(** A reply that the earlier revision parses to an object is accepted by
    the current extraction, with the same object. *)
Lemma extractJson_extends_v1 (raw : text) (o : list (text * json)) (rest : text) :
  parse_json_text (fenceStripped raw) = POk (JObject o) rest ->
  extractJson raw = Ok (Some o).
Proof.
  intros H. unfold extractJson, attempts. cbn [app extract_loop].
  unfold JSON_parse. now rewrite H.
Qed.

(** X15: the current route is a conservative extension of the earlier
    one: for a valid request whose reply the earlier revision parses to an
    object, both revisions give the same answer, 200 with the same body. *)
Theorem current_route_extends_earlier
        (w : World) (image mediaType : text) (o : list (text * json)) :
  valid_request w image mediaType ->
  snd (fetchClaudeAnalysis_v1 syntaxErrorMessage w image mediaType) = Ok (JObject o) ->
  snd (POST_v1 syntaxErrorMessage w) = response w /\
  exists web, response w = Responded 200 (success_body o web).
Proof.
  intros Hv H1. unfold response.
  rewrite (POST_v1_valid _ _ _ Hv), (POST_valid _ _ _ Hv).
  rewrite runScan_v1_response, runScan_response, H1.
  rewrite fetchClaudeAnalysis_v1_run in H1. rewrite fetchClaudeAnalysis_run.
  destruct (messages_create w image mediaType) as [content|e]; [|discriminate].
  destruct (parse_json_text (fenceStripped (rawTextOf content))) as [v rest| |] eqn:E;
    try discriminate.
  injection H1 as ->. cbn [snd].
  rewrite (extractJson_extends_v1 _ _ _ E).
  destruct (webResultsPromise_resolves w image mediaType) as (web & ->).
  split; [reflexivity|]. now exists web.
Qed.

(** X16: a reply without a brace pair that the earlier revision parses to
    a value with nothing to spread (null, a boolean, a number, an empty
    string or array) was answered 200 with nothing but webResults; the
    current route answers it 502, as an extraction failure carrying the
    reply. *)
Theorem primitive_reply_no_longer_accepted
        (w : World) (image mediaType : text) (content : list ContentBlock) (v : json) :
  valid_request w image mediaType ->
  messages_create w image mediaType = Ok content ->
  snd (fetchClaudeAnalysis_v1 syntaxErrorMessage w image mediaType) = Ok v ->
  spread_value v = [] ->
  ~ has_brace_pair (rawTextOf content) ->
  (exists web, snd (POST_v1 syntaxErrorMessage w)
               = Responded 200 [(lit "webResults", FWebResults web)]) /\
  response w = Responded 502
    [(lit "error", FJson (JString (lit "Claude returned an unexpected response format.")));
     (lit "raw", FJson (JString (lit "Could not extract JSON from Claude response: "
                                 ++ rawTextOf content)))].
Proof.
  intros Hv Hc H1 Hs Hn. split.
  - rewrite (POST_v1_valid _ _ _ Hv), runScan_v1_response, H1.
    destruct (webResultsPromise_resolves w image mediaType) as (web & ->).
    exists web. now rewrite Hs.
  - unfold response. rewrite (POST_valid _ _ _ Hv), runScan_response.
    rewrite fetchClaudeAnalysis_run, Hc. cbn [snd].
    rewrite (extractJson_no_pair _ Hn).
    unfold scanError. cbn [snd]. now rewrite extract_prefix_dispatch.
Qed.

End Revisions.

Lemma current_route_extends_earlier_witness :
  snd (POST_v1 (fun _ => lit "Unexpected token") world_search_ok) = response world_search_ok /\
  exists web, response world_search_ok
              = Responded 200
                  (success_body [(lit "description", JString (lit "A red mug"));
                                 (lit "webResults", JString (lit "none"))] web).
Proof.
  apply (current_route_extends_earlier (fun _ => lit "Unexpected token") world_search_ok
           (lit "aGVsbG8=") (lit "image/png")).
  - split; [ eexists; vm_compute; reflexivity
           | eexists; split; [vm_compute; reflexivity|];
             split; [vm_compute; reflexivity|];
             split; [discriminate | vm_compute; reflexivity] ].
  - vm_compute. reflexivity.
Defined.

Lemma primitive_reply_no_longer_accepted_witness :
  (exists web, snd (POST_v1 (fun _ => lit "Unexpected token") world_reply_null)
               = Responded 200 [(lit "webResults", FWebResults web)]) /\
  response world_reply_null = Responded 502
    [(lit "error", FJson (JString (lit "Claude returned an unexpected response format.")));
     (lit "raw", FJson (JString (lit "Could not extract JSON from Claude response: "
                                 ++ rawTextOf [TextBlock (lit "null")])))].
Proof.
  apply (primitive_reply_no_longer_accepted (fun _ => lit "Unexpected token") world_reply_null
           (lit "aGVsbG8=") (lit "image/jpeg") [TextBlock (lit "null")] JNull).
  - split; [ eexists; vm_compute; reflexivity
           | eexists; split; [vm_compute; reflexivity|];
             split; [vm_compute; reflexivity|];
             split; [discriminate | vm_compute; reflexivity] ].
  - reflexivity.
  - vm_compute. reflexivity.
  - reflexivity.
  - apply no_pair_by_search. reflexivity.
Defined.
